(** * starx: message frame codec, RPC client engine and cluster manager

    A shallow embedding of three parts of the starx networking core:

    - package [message] (frame codec: [Encode], [Decode]; route dictionary:
      [SetDict]);
    - package [rpc] (client engine: [send], [input], [Close], [Go], [Call],
      [OnShutdown]);
    - package [cluster] (the [Manager] attachment methods).

    Go values are modelled as follows.  A [byte] is Stdlib's [Byte.byte];
    a [uint] is an [N] reduced modulo [2^64]; a Go [string] is a sequence of
    bytes, i.e. Stdlib's [string]; a [[]byte] that is only read is a
    [Slice] carrying the [len] visible elements and the elements of the
    backing array between [len] and [cap]; maps are stdpp [gmap]s;
    pointers are locations into explicit heaps. *)

From Stdlib Require Import NArith ZArith Lia.
From Stdlib Require Import Strings.Byte Strings.Ascii Strings.String.
From stdpp Require Import gmap strings list.

Local Open Scope N_scope.

Abbreviation bytes := (list byte).

(** ** Bytes and machine integers *)

(** Conversion [byte(n)] of an unsigned integer: the low eight bits. *)
Definition byte_of_N (n : N) : byte :=
  match Byte.of_N (n mod 256) with
  | Some b => b
  | None => x00
  end.

(** Conversion to Go's [uint] (64 bits). *)
Definition uint (n : N) : N := n mod 2 ^ 64.

(** ** Slices

    [elems] are the [len] elements a program may index; [beyond] are the
    elements of the backing array from [len] up to [cap], which a slice
    expression [s[lo:hi]] may reach. *)
Record Slice := mkSlice { elems : bytes; beyond : bytes }.

Definition len (s : Slice) : nat := length (elems s).
Definition cap (s : Slice) : nat := length (elems s) + length (beyond s).

(** A slice whose capacity equals its length. *)
Definition exact (l : bytes) : Slice := mkSlice l [].

(** [s[i]]: [None] is the runtime panic "index out of range". *)
Definition index (s : Slice) (i : nat) : option byte := elems s !! i.

(** [s[lo:hi]]: the bound is the capacity, not the length. *)
Definition reslice (s : Slice) (lo hi : nat) : option bytes :=
  if ((lo <=? hi) && (hi <=? cap s))%nat
  then Some (take (hi - lo) (drop lo (elems s ++ beyond s)))
  else None.

(** [s[lo:]], that is [s[lo:len(s)]]. *)
Definition reslice_from (s : Slice) (lo : nat) : option bytes :=
  if (lo <=? len s)%nat then Some (drop lo (elems s)) else None.

(** ** Outcomes of fallible code

    [Ok] is a normal return with a nil error, [Err] a return with a
    non-nil error, [Panic] a runtime panic. *)
Inductive result (E A : Type) : Type :=
| Ok (a : A)
| Err (e : E)
| Panic.
Arguments Ok {E A} a.
Arguments Err {E A} e.
Arguments Panic {E A}.

#[global] Instance result_bind {E} : MBind (result E) := λ A B k r,
  match r with
  | Ok a => k a
  | Err e => Err e
  | Panic => Panic
  end.

(** An access that panics when out of range. *)
Definition checked {E A} (o : option A) : result E A :=
  match o with
  | Some a => Ok a
  | None => Panic
  end.

(** * Package message *)
Module message.

Definition MessageType := byte.

Definition Request : MessageType := x00.
Definition Notify : MessageType := x01.
Definition Response : MessageType := x02.
Definition Push : MessageType := x03.

Definition msgRouteCompressMask : N := 0x01.
Definition msgTypeMask : N := 0x07.
Definition msgRouteLengthMask : N := 0xFF.
Definition msgHeadLength : nat := 0x03.

Inductive error :=
| ErrWrongMessageType
| ErrInvalidMessage
| ErrRouteInfoNotFound.

(** The field [Type] of the source is [Typ] here. *)
Record Message := mkMessage {
  Typ : MessageType;
  ID : N;
  Route : string;
  Data : bytes;
  compressed : bool
}.

Definition New : Message := mkMessage x00 0 EmptyString [] false.

Definition msgRoute (t : MessageType) : bool :=
  Byte.eqb t Request || Byte.eqb t Notify || Byte.eqb t Push.

Definition invalidType (t : MessageType) : bool :=
  (Byte.to_N t <? Byte.to_N Request) || (Byte.to_N Push <? Byte.to_N t).

(** The variable-length loop of [Encode]: seven bits per byte, low group
    first, high bit set on every byte but the last.  One unit of [fuel]
    is one iteration. *)
Fixpoint encodeID (fuel : nat) (n : N) : bytes :=
  match fuel with
  | O => []
  | S fuel =>
    let b := byte_of_N (n mod 128) in
    let n := N.shiftr n 7 in
    if negb (n =? 0)
    then byte_of_N (Byte.to_N b + 128) :: encodeID fuel n
    else [b]
  end.

(** Iterations that always suffice: every iteration drops seven bits. *)
Definition idFuel (n : N) : nat := S (N.to_nat (N.size n)).

(** The variable-length loop of [Decode],
    [for i := offset; i < len(data); i++].  It returns the identifier and
    the new value of [offset], which is left as it was when no byte
    below 128 is met before the end of the data. *)
Fixpoint decodeID (fuel : nat) (data : bytes) (offset i : nat) (id : N) : N * nat :=
  match fuel with
  | O => (id, offset)
  | S fuel =>
    match data !! i with
    | None => (id, offset)
    | Some b =>
      let id := uint (id + uint (N.shiftl (N.land (Byte.to_N b) 0x7F)
                                          (N.of_nat (7 * (i - offset))))) in
      if Byte.to_N b <? 128 then (id, (i + 1)%nat)
      else decodeID fuel data offset (i + 1)%nat id
    end
  end.

(** [binary.BigEndian.Uint16] on a two-byte slice. *)
Definition Uint16 (b : bytes) : option N :=
  match b with
  | [b0; b1] => Some (N.lor (Byte.to_N b1) (N.shiftl (Byte.to_N b0) 8))
  | _ => None
  end.

Section Codec.

(** The package-level dictionaries, filled by [SetDict] before traffic. *)
Variable routeDict : gmap string N.
Variable codeDict : gmap N string.

Definition Encode (m : Message) : result error bytes :=
  if invalidType (Typ m) then Err ErrWrongMessageType else
  let flag := N.shiftl (Byte.to_N (Typ m)) 1 mod 256 in
  let code := routeDict !! Route m in
  let flag := if code is Some _ then N.lor flag msgRouteCompressMask else flag in
  let buf := [byte_of_N flag] in
  let buf :=
    if Byte.eqb (Typ m) Request || Byte.eqb (Typ m) Response
    then buf ++ encodeID (idFuel (ID m)) (ID m)
    else buf in
  let buf :=
    if msgRoute (Typ m) then
      match code with
      | Some code =>
        buf ++ [byte_of_N (N.land (N.shiftr code 8) 0xFF); byte_of_N (N.land code 0xFF)]
      | None =>
        buf ++ [byte_of_N (N.of_nat (String.length (Route m)))]
            ++ list_byte_of_string (Route m)
      end
    else buf in
  Ok (buf ++ Data m).

Definition Decode (data : Slice) : result error Message :=
  if (len data <=? msgHeadLength)%nat then Err ErrInvalidMessage else
  (flag ← checked (index data 0);
   let offset := 1%nat in
   let typ := byte_of_N (N.land (N.shiftr (Byte.to_N flag) 1) msgTypeMask) in
   if invalidType typ then Err ErrWrongMessageType else
   let '(id, offset) :=
     if Byte.eqb typ Request || Byte.eqb typ Response
     then decodeID (len data - offset) (elems data) offset offset 0
     else (0, offset) in
   '(cmp, route, offset) ←
     (if msgRoute typ then
        if N.land (Byte.to_N flag) msgRouteCompressMask =? 1 then
          b ← checked (reslice data offset (offset + 2));
          code ← checked (Uint16 b);
          match codeDict !! code with
          | None => Err ErrRouteInfoNotFound
          | Some route => Ok (true, route, (offset + 2)%nat)
          end
        else
          rl ← checked (index data offset);
          let offset := (offset + 1)%nat in
          r ← checked (reslice data offset (offset + N.to_nat (Byte.to_N rl)));
          Ok (false, string_of_list_byte r, (offset + N.to_nat (Byte.to_N rl))%nat)
      else Ok (false, EmptyString, offset));
   d ← checked (reslice_from data offset);
   Ok (mkMessage typ id route d cmp)).

(** The bytes [Encode] writes before the payload. *)
Definition header (m : Message) : bytes :=
  match Encode (mkMessage (Typ m) (ID m) (Route m) [] (compressed m)) with
  | Ok b => b
  | _ => []
  end.

(** The kinds that carry a request identifier. *)
Definition hasID (t : MessageType) : bool :=
  Byte.eqb t Request || Byte.eqb t Response.

(** A well-formed message: one of the four kinds, an identifier that
    fits a [uint], and a route of at most 255 bytes when the kind
    carries one. *)
Definition wf_message (m : Message) : Prop :=
  invalidType (Typ m) = false ∧
  ID m < 2 ^ 64 ∧
  (msgRoute (Typ m) = true → (String.length (Route m) ≤ 255)%nat).

(** The two dictionaries agree, and every code fits a [uint16]. *)
Definition dict_ok : Prop :=
  ∀ r c, routeDict !! r = Some c → c < 65536 ∧ codeDict !! c = Some r.

(** What [Decode] is expected to give back for [m] when [payload] follows
    the header: a kind without identifier has [ID] zero, one without
    route has the empty route. *)
Definition decoded (m : Message) (payload : bytes) : Message :=
  mkMessage (Typ m)
            (if hasID (Typ m) then ID m else 0)
            (if msgRoute (Typ m) then Route m else EmptyString)
            payload
            (if msgRoute (Typ m) then bool_decide (is_Some (routeDict !! Route m)) else false).

(** The three parts of a header: flag byte, identifier, route. *)
Definition flagByte (t : MessageType) (cmp : bool) : byte :=
  byte_of_N (let flag := N.shiftl (Byte.to_N t) 1 mod 256 in
             if cmp then N.lor flag msgRouteCompressMask else flag).

Definition idBytes (m : Message) : bytes :=
  if hasID (Typ m) then encodeID (idFuel (ID m)) (ID m) else [].

Definition routeBytes (m : Message) : bytes :=
  if msgRoute (Typ m) then
    match routeDict !! Route m with
    | Some code => [byte_of_N (N.land (N.shiftr code 8) 0xFF); byte_of_N (N.land code 0xFF)]
    | None => byte_of_N (N.of_nat (String.length (Route m))) :: list_byte_of_string (Route m)
    end
  else [].

End Codec.

(** ** The route dictionary *)
Section Dict.

(** [strings.TrimSpace] of the standard library. *)
Variable TrimSpace : string → string.

(** One turn of the loop of [SetDict] on the entry [(route, code)]: the
    two duplication checks, each with its warning, then the two updates.
    The state is the two dictionaries and the warnings logged so far, in
    the order they were logged; a warning is the pair it prints. *)
Definition SetDict_entry
    (st : gmap string N * gmap N string * list (string * N)) (e : string * N)
    : gmap string N * gmap N string * list (string * N) :=
  let '(routeDict, codeDict, warns) := st in
  let '(route, code) := e in
  let r := TrimSpace route in
  let warns := if routeDict !! r is Some _ then warns ++ [(r, code)] else warns in
  let warns := if codeDict !! code is Some _ then warns ++ [(r, code)] else warns in
  (<[r := code]> routeDict, <[code := r]> codeDict, warns).

(** [SetDict]: [entries] are the pairs of the argument map in the order
    in which [range] visits them, an order Go leaves open. *)
Definition SetDict (entries : list (string * N))
    (routeDict : gmap string N) (codeDict : gmap N string)
    : gmap string N * gmap N string * list (string * N) :=
  foldl SetDict_entry (routeDict, codeDict, []) entries.

End Dict.

(** [strings.TrimSpace] on strings of ASCII characters: the white space
    of [unicode.IsSpace] below 128 is cut off at both ends. *)
Definition isSpace (a : ascii) : bool :=
  match a with
  | " "%char | "009"%char | "010"%char | "011"%char | "012"%char | "013"%char => true
  | _ => false
  end.

Fixpoint trimLeft (s : string) : string :=
  match s with
  | EmptyString => EmptyString
  | String a s' => if isSpace a then trimLeft s' else s
  end.

Fixpoint trimRight (s : string) : string :=
  match s with
  | EmptyString => EmptyString
  | String a s' =>
    match trimRight s' with
    | EmptyString => if isSpace a then EmptyString else String a EmptyString
    | t => String a t
    end
  end.

Definition trimASCII (s : string) : string := trimRight (trimLeft s).

(** A table with two routes, one of them with blanks around it, and the
    dictionaries [SetDict] makes of it. *)
Definition demoTable : list (string * N) :=
  [(" room.join "%string, 7); ("room.leave"%string, 8)].
Definition demoTableRoutes : gmap string N :=
  {[ "room.join"%string := 7; "room.leave"%string := 8 ]}.
Definition demoTableCodes : gmap N string :=
  {[ 7 := "room.join"%string; 8 := "room.leave"%string ]}.

(** A dictionary with the single entry of the specification's scenario,
    and some messages used as concrete inputs below. *)
Definition demoRouteDict : gmap string N := {[ "room.join"%string := 7 ]}.
Definition demoCodeDict : gmap N string := {[ 7 := "room.join"%string ]}.

Definition joinNotify : Message :=
  mkMessage Notify 0 "room.join" [x61; x62; x63] false.
Definition chatNotify : Message :=
  mkMessage Notify 0 "ab" [x78; x79; x7a] false.
Definition shortResponse : Message :=
  mkMessage Response 5 EmptyString [x61] false.
Definition chatRequest : Message :=
  mkMessage Request 300 "ab" [x61; x62; x63] false.

End message.

(** * Package rpc *)
Module rpc.

(** Error values: the package's own, [io.EOF] and [io.ErrUnexpectedEOF],
    a [ServerError] carrying the remote text, and any other error value
    (of the stream or of the record codec), named by its text. *)
Inductive error :=
| ErrShutdown
| ErrRequestOverFlow
| ErrEmptyBuffer
| ErrTruncedBuffer
| EOF
| ErrUnexpectedEOF
| ServerError (s : string)
| OtherError (s : string).

#[global] Instance error_eq_dec : EqDecision error.
Proof. solve_decision. Defined.

(** Pointers ([*Call], [*[]byte], [chan *Call]) are locations. *)
Abbreviation loc := positive.

(** The stream: Go's [io.ReadWriteCloser].  Every method returns the
    stream after the operation together with the method's results;
    [rw_Read c n] reads into a buffer of [n] bytes and returns the bytes
    read, [rw_Write] the number of bytes written. *)
Class ReadWriteCloser (C : Type) := {
  rw_Read : C → nat → C * (bytes * option error);
  rw_Write : C → bytes → C * (nat * option error);
  rw_Close : C → C * option error
}.

(** A buffered channel of [*Call]: capacity and queued elements. *)
Record Chan := mkChan { ch_cap : nat; ch_queue : list loc }.

(** Call represents an active RPC. *)
Record Call := mkCall {
  ServiceMethod : string;
  Args : bytes;
  Sid : Z;
  Reply : option loc;
  Error : option error;
  Done : loc
}.

Section Engine.

(** The kinds of requests and of responses, and the two response kinds
    the receive loop forwards: declared outside the files at hand. *)
Context {RpcKind ResponseKind : Type} `{EqDecision ResponseKind}.
Variables HandlerPush HandlerResponse : ResponseKind.

(** The peer records, with the fields the client reads and writes;
    [rqKind] is [None] in the zero record, before any send. *)
Record Request := mkRequest {
  rqSeq : N;
  rqServiceMethod : string;
  rqData : bytes;
  rqKind : option RpcKind;
  rqSid : Z
}.

Record Response := mkResponse {
  rsKind : ResponseKind;
  rsSeq : N;
  rsError : string;
  rsData : bytes
}.

(** The generated record codec: [MarshalMsg] appends the encoding to its
    argument, [UnmarshalMsg] fills a record and returns what it leaves of
    the buffer and an error. *)
Variable MarshalMsg : Request → bytes → bytes * option error.
Variable UnmarshalMsg : bytes → Response * (bytes * option error).

Context {C : Type} `{ReadWriteCloser C}.

(** Client represents an RPC Client; [codec_buf] is [codec.buf], the
    stream [codec.rw] is the field [conn] of the world below. *)
Record Client := mkClient {
  codec_buf : bytes;
  request : Request;
  seq : N;
  pending : gmap N loc;
  closing : bool;
  shutdown : bool;
  shutdownCallback : bool;
  ResponseChan : list Response
}.

(** What a step of the engine did, for the history kept in the world:
    a call entered the table, a call's [done] ran, bytes were handed to
    the stream, a record was forwarded, the shutdown callback ran. *)
Inductive event :=
| EvRegister (s : N) (c : loc)
| EvDone (c : loc)
| EvWrite (data : bytes)
| EvForward (r : Response)
| EvCallback.

(** The client, its stream, the heaps its pointers point into, and the
    history of events, latest first. *)
Record World := mkWorld {
  client : Client;
  conn : C;
  calls : gmap loc Call;
  slots : gmap loc bytes;
  chans : gmap loc Chan;
  trace : list event
}.

Definition upd_client (f : Client → Client) (w : World) : World :=
  mkWorld (f (client w)) (conn w) (calls w) (slots w) (chans w) (trace w).
Definition set_conn (c : C) (w : World) : World :=
  mkWorld (client w) c (calls w) (slots w) (chans w) (trace w).
Definition upd_calls (f : gmap loc Call → gmap loc Call) (w : World) : World :=
  mkWorld (client w) (conn w) (f (calls w)) (slots w) (chans w) (trace w).
Definition upd_slots (f : gmap loc bytes → gmap loc bytes) (w : World) : World :=
  mkWorld (client w) (conn w) (calls w) (f (slots w)) (chans w) (trace w).
Definition upd_chans (f : gmap loc Chan → gmap loc Chan) (w : World) : World :=
  mkWorld (client w) (conn w) (calls w) (slots w) (f (chans w)) (trace w).
Definition emit (e : event) (w : World) : World :=
  mkWorld (client w) (conn w) (calls w) (slots w) (chans w) (e :: trace w).

Definition set_buf (b : bytes) (cl : Client) : Client :=
  mkClient b (request cl) (seq cl) (pending cl) (closing cl) (shutdown cl)
           (shutdownCallback cl) (ResponseChan cl).
Definition set_request (r : Request) (cl : Client) : Client :=
  mkClient (codec_buf cl) r (seq cl) (pending cl) (closing cl) (shutdown cl)
           (shutdownCallback cl) (ResponseChan cl).
Definition set_seq (n : N) (cl : Client) : Client :=
  mkClient (codec_buf cl) (request cl) n (pending cl) (closing cl) (shutdown cl)
           (shutdownCallback cl) (ResponseChan cl).
Definition set_pending (p : gmap N loc) (cl : Client) : Client :=
  mkClient (codec_buf cl) (request cl) (seq cl) p (closing cl) (shutdown cl)
           (shutdownCallback cl) (ResponseChan cl).
Definition set_closing (b : bool) (cl : Client) : Client :=
  mkClient (codec_buf cl) (request cl) (seq cl) (pending cl) b (shutdown cl)
           (shutdownCallback cl) (ResponseChan cl).
Definition set_shutdown (b : bool) (cl : Client) : Client :=
  mkClient (codec_buf cl) (request cl) (seq cl) (pending cl) (closing cl) b
           (shutdownCallback cl) (ResponseChan cl).
Definition set_shutdownCallback (b : bool) (cl : Client) : Client :=
  mkClient (codec_buf cl) (request cl) (seq cl) (pending cl) (closing cl)
           (shutdown cl) b (ResponseChan cl).
Definition set_ResponseChan (q : list Response) (cl : Client) : Client :=
  mkClient (codec_buf cl) (request cl) (seq cl) (pending cl) (closing cl)
           (shutdown cl) (shutdownCallback cl) q.

(** Conversion to [uint64], for [client.seq++]. *)
Definition uint64 (n : N) : N := n mod 2 ^ 64.

(** [call.Error = err] through the pointer [c]. *)
Definition set_Error (err : option error) (call : Call) : Call :=
  mkCall (ServiceMethod call) (Args call) (Sid call) (Reply call) err (Done call).

Definition store_Error (c : loc) (err : option error) (w : World) : World :=
  upd_calls (alter (set_Error err) c) w.

(** [call.done()]: a send on [call.Done] that does not block; the signal
    is dropped when the channel has no room. *)
Definition Call_done (c : loc) (w : World) : World :=
  let w := emit (EvDone c) w in
  match calls w !! c with
  | None => w
  | Some call =>
    match chans w !! Done call with
    | None => w
    | Some ch =>
      if (length (ch_queue ch) <? ch_cap ch)%nat
      then upd_chans <[Done call := mkChan (ch_cap ch) (ch_queue ch ++ [c])]> w
      else w
    end
  end.

Definition emptyBytes : bytes := [].

Definition writeRequest (w : World) : World * option error :=
  let '(data, err) := MarshalMsg (request (client w)) emptyBytes in
  match err with
  | Some e => (w, Some e)
  | None =>
    let '(c, (_, err)) := rw_Write (conn w) data in
    (set_conn c (emit (EvWrite data) w), err)
  end.

(** [send], first part: the registration under [client.mutex].  The
    result [None] is the early return of a client that is closing or shut
    down, [Some seq] carries the local variable [seq] to the write. *)
Definition send_register (c : loc) (w : World) : World * option N :=
  if shutdown (client w) || closing (client w) then
    (Call_done c (store_Error c (Some ErrShutdown) w), None)
  else
    let s := seq (client w) in
    match calls w !! c with
    | None => (w, Some s)
    | Some call =>
      if Reply call is Some _
      then (emit (EvRegister s c)
              (upd_client (λ cl, set_pending (<[s := c]> (pending cl))
                                   (set_seq (uint64 (s + 1)) cl)) w),
            Some s)
      else (w, Some s)
    end.

(** [send], second part: the request is filled in and written; a write
    that fails takes the table's entry for [seq] out and completes the
    call found there, if any. *)
Definition send_write (rpcKind : RpcKind) (c : loc) (s : N) (w : World) : World :=
  match calls w !! c with
  | None => w
  | Some call =>
    let w := upd_client (set_request
               (mkRequest s (ServiceMethod call) (Args call) (Some rpcKind) (Sid call))) w in
    let '(w, err) := writeRequest w in
    match err with
    | None => w
    | Some e =>
      let found := pending (client w) !! s in
      let w := upd_client (λ cl, set_pending (delete s (pending cl)) cl) w in
      match found with
      | Some c' => Call_done c' (store_Error c' (Some e) w)
      | None => w
      end
    end
  end.

Definition send (rpcKind : RpcKind) (c : loc) (w : World) : World :=
  let '(w, r) := send_register c w in
  match r with
  | None => w
  | Some s => send_write rpcKind c s w
  end.

(** How a piece of the receive loop ends. *)
Inductive flow :=
| Next (w : World)
| Blocked (w : World)
| Crashed (w : World)
| OutOfFuel (w : World).

Definition flow_world (f : flow) : World :=
  match f with
  | Next w | Blocked w | Crashed w | OutOfFuel w => w
  end.

(** The body of the inner loop for one decoded record.  [Blocked]: the
    send on the full [ResponseChan] waits for a consumer; [Crashed]: the
    store through a nil [Reply]. *)
Definition handle_response (response : Response) (w : World) : flow :=
  if decide (rsKind response = HandlerPush ∨ rsKind response = HandlerResponse) then
    if (length (ResponseChan (client w)) <? 2048)%nat
    then Next (emit (EvForward response)
                 (upd_client (λ cl, set_ResponseChan (ResponseChan cl ++ [response]) cl) w))
    else Blocked w
  else
    let s := rsSeq response in
    let found := pending (client w) !! s in
    let w := upd_client (λ cl, set_pending (delete s (pending cl)) cl) w in
    match found with
    | None => Next w
    | Some c =>
      if negb (String.eqb (rsError response) EmptyString) then
        Next (Call_done c (store_Error c (Some (ServerError (rsError response))) w))
      else
        match calls w !! c with
        | Some (mkCall _ _ _ (Some slot) _ _) =>
          Next (Call_done c (upd_slots <[slot := rsData response]> w))
        | _ => Crashed w
        end
    end.

(** One decoding attempt on the buffer head:
    [client.codec.buf, err = response.UnmarshalMsg(client.codec.buf)].
    The buffer is replaced by what the decoder returned, error or not. *)
Definition decode_record (w : World) : World * Response * option error :=
  let '(response, (rest, err)) := UnmarshalMsg (codec_buf (client w)) in
  (upd_client (set_buf rest) w, response, err).

(** The inner loop [for { ... }]: it ends, with [Next], at the first
    error of [UnmarshalMsg]. *)
Fixpoint decode_loop (fuel : nat) (w : World) : flow :=
  match fuel with
  | O => OutOfFuel w
  | S fuel =>
    let '(w, response, err) := decode_record w in
    match err with
    | Some _ => Next w
    | None =>
      match handle_response response w with
      | Next w => decode_loop fuel w
      | other => other
      end
    end
  end.

(** One read of the stream into [tmp], appended to the buffer when the
    read succeeds. *)
Definition read_chunk (w : World) : World * option error :=
  let '(c, (chunk, err)) := rw_Read (conn w) 512 in
  let w := set_conn c w in
  match err with
  | Some e => (w, Some e)
  | None => (upd_client (λ cl, set_buf (codec_buf cl ++ chunk) cl) w, None)
  end.

(** The outer loop [for err == nil { ... }].  The [err] of its condition
    is the variable declared before the loop, which nothing assigns: the
    [err] set by [Read] and by [UnmarshalMsg] is the one declared by
    [n, err := ...] inside the body.  So the loop ends only at the [break]
    after a failed [Read], with [Next]. *)
Fixpoint read_loop (fuel : nat) (w : World) : flow :=
  match fuel with
  | O => OutOfFuel w
  | S fuel =>
    let '(w, err) := read_chunk w in
    match err with
    | Some _ => Next w
    | None =>
      match decode_loop fuel w with
      | Next w => read_loop fuel w
      | other => other
      end
    end
  end.

(** The classification of the loop's error. *)
Definition classify (err : option error) (closing : bool) : option error :=
  if decide (err = Some EOF)
  then (if closing then Some ErrShutdown else Some ErrUnexpectedEOF)
  else err.

(** "Terminate pending calls": the part of [input] behind the loop, for
    the value [err] of the outer variable.  Go leaves the order of
    [range client.pending] open; the order of [map_to_list] stands for it. *)
Definition terminate (err : option error) (w : World) : World :=
  let w := upd_client (set_shutdown true) w in
  let err := classify err (closing (client w)) in
  let w := foldl (λ w '(_, c), Call_done c (store_Error c err w)) w
                 (map_to_list (pending (client w))) in
  if shutdownCallback (client w) then emit EvCallback w else w.

(** [input]: the loop, then the termination with the outer [err], which
    is still nil. *)
Definition input (fuel : nat) (w : World) : flow :=
  match read_loop fuel w with
  | Next w => Next (terminate None w)
  | other => other
  end.

Definition NewClientState (c : C) : World :=
  mkWorld (mkClient [] (mkRequest 0 EmptyString [] None 0) 0 ∅ false false false [])
          c ∅ ∅ ∅ [].

Definition OnShutdown (w : World) : World :=
  upd_client (set_shutdownCallback true) w.

Definition Close (w : World) : World * option error :=
  if closing (client w) then (w, Some ErrShutdown)
  else
    let w := upd_client (set_closing true) w in
    let '(c, err) := rw_Close (conn w) in
    (set_conn c w, err).

(** [Go] up to the call of [send]: the new [Call], with a new channel of
    capacity 10 when [done] is nil. *)
Definition newCall (service method : string) (sid : Z) (reply done : option loc)
    (args : bytes) (w : World) : loc * World :=
  let c := fresh (dom (calls w)) in
  let '(d, w) :=
    match done with
    | None => let d := fresh (dom (chans w)) in (d, upd_chans <[d := mkChan 10 []]> w)
    | Some d => (d, w)
    end in
  (c, upd_calls <[c := mkCall (service +:+ "." +:+ method) args sid reply None d]> w).

Definition Go (rpcKind : RpcKind) (service method : string) (sid : Z)
    (reply done : option loc) (args : bytes) (w : World) : loc * World :=
  let '(c, w) := newCall service method sid reply done args w in
  (c, send rpcKind c w).


(** What a caller that waits on a channel gets: the error slot of the
    call received, or nothing yet. *)
Inductive waited :=
| Returned (err : option error)
| Waiting.

(** The receive [<-call.Done] and the [Error] of the call received.
    [Waiting]: the channel is empty, and the caller blocks until a [done]
    fills it. *)
Definition receive_Done (c : loc) (w : World) : waited * World :=
  match calls w !! c with
  | None => (Waiting, w)
  | Some call =>
    match chans w !! Done call with
    | Some (mkChan n (c' :: q)) =>
      (Returned (default None (Error <$> calls w !! c')),
       upd_chans <[Done call := mkChan n q]> w)
    | _ => (Waiting, w)
    end
  end.

(** [Client.Call]: [Go] with a new channel of capacity 1, then the
    receive on the [Done] of the call [Go] returned. *)
Definition Client_Call (rpcKind : RpcKind) (service method : string) (sid : Z)
    (reply : option loc) (args : bytes) (w : World) : waited * World :=
  let d := fresh (dom (chans w)) in
  let w := upd_chans <[d := mkChan 1 []]> w in
  let '(c, w) := Go rpcKind service method sid reply (Some d) args w in
  receive_Done c w.

(** What a successful read does to the buffer:
    [client.codec.buf = append(client.codec.buf, tmp[:n]...)]. *)
Definition feed (chunk : bytes) (w : World) : World :=
  upd_client (λ cl, set_buf (codec_buf cl ++ chunk) cl) w.

(** ** The engine under concurrency

    The goroutines of callers and the receive loop interleave at the
    grain of the critical sections of [client.mutex].  Both completion
    paths take the entry out of the table under the mutex and complete the
    call found only after the unlock, so each is two steps, and a state in
    which the entry is gone and [done] has not run yet is a state of the
    engine.  The pieces of [send] and of the loop body between which the
    mutex is free come first; [send_write] and [handle_response] above are
    these pieces run in sequence. *)

(** [send] behind the registration: the request is filled in and
    written. *)
Definition send_request (rpcKind : RpcKind) (c : loc) (s : N) (w : World)
    : World * option error :=
  match calls w !! c with
  | None => (w, None)
  | Some call =>
    writeRequest (upd_client (set_request
      (mkRequest s (ServiceMethod call) (Args call) (Some rpcKind) (Sid call))) w)
  end.

(** The critical section the two completion paths share:
    [call = client.pending[seq]; delete(client.pending, seq)]. *)
Definition take_entry (s : N) (w : World) : World * option loc :=
  (upd_client (λ cl, set_pending (delete s (pending cl)) cl) w, pending (client w) !! s).

(** [send] behind the critical section of a failed write:
    [if call != nil { call.Error = err; call.done() }]. *)
Definition fail_call (found : option loc) (e : error) (w : World) : World :=
  match found with
  | Some c' => Call_done c' (store_Error c' (Some e) w)
  | None => w
  end.

(** The send on [ResponseChan]. *)
Definition forward_response (response : Response) (w : World) : flow :=
  if (length (ResponseChan (client w)) <? 2048)%nat
  then Next (emit (EvForward response)
               (upd_client (λ cl, set_ResponseChan (ResponseChan cl ++ [response]) cl) w))
  else Blocked w.

(** The [switch] of the loop body, behind its critical section. *)
Definition deliver (response : Response) (found : option loc) (w : World) : flow :=
  match found with
  | None => Next w
  | Some c =>
    if negb (String.eqb (rsError response) EmptyString) then
      Next (Call_done c (store_Error c (Some (ServerError (rsError response))) w))
    else
      match calls w !! c with
      | Some (mkCall _ _ _ (Some slot) _ _) =>
        Next (Call_done c (upd_slots <[slot := rsData response]> w))
      | _ => Crashed w
      end
  end.

(** Where the [send] that owns [reqMutex] stands: before its write, behind
    a write that failed with [e], or behind the critical section that
    followed, with the call it found in the table. *)
Inductive progress :=
| ToWrite
| ToWithdraw (e : error)
| ToFail (e : error) (found : option loc).

(** What the callers and the peer did, as far as the table is concerned,
    latest first: [Go] passed the gate of [send] with call [c], which got
    the number [s]; the receive loop decoded a response numbered [s] that
    is not forwarded; a [send] whose write had failed came back for the
    number [s]; the receive loop terminated.  The entries are written by
    [step] below, from the arguments of [Go] and from the course the code
    takes, never by the statements that change the table. *)
Inductive happening :=
| HIssue (s : N) (c : loc) (reply : option loc)
| HAnswer (s : N)
| HWithdraw (s : N)
| HTerminate.

(** The state of the engine: the world; [sending], the local variables of
    the one [send] that is between its registration and its end (it owns
    [reqMutex], so no other [send] and no termination can start), and
    [phase], where it stands; [receiving], whether the receive loop has
    not reached its termination yet, and [handling], the response and the
    call the loop holds between its critical section and its [switch]. *)
Record Sys := mkSys {
  world : World;
  sending : option (RpcKind * loc * N);
  receiving : bool;
  phase : progress;
  handling : option (Response * option loc);
  history : list happening
}.

Inductive action :=
| AGo (rpcKind : RpcKind) (service method : string) (sid : Z)
      (reply done : option loc) (args : bytes)
| AWrite
| AWithdraw
| AFail
| ARead
| ADecode
| ADeliver
| ADrain
| AClose.

(** One atomic step; [None] when the action cannot happen in this state
    (a goroutine waits for [reqMutex], a loop that has ended, a loop that
    blocks or crashes).  [AGo] goes up to the end of the registration (on
    a client that is closing or shut down, to the end of [send]: the call
    it completes there is known to no one else yet); [AWrite] fills in and
    writes the request, and ends the [send] when the write succeeds;
    [AWithdraw] is the critical section behind a failed write, [AFail] the
    rest of that [send].  [ARead] is one read of the receive loop;
    [ADecode] one decoding attempt and, for a response that is not
    forwarded, the critical section; [ADeliver] the [switch] that follows;
    [ADrain] the termination, under both mutexes. *)
Definition step (a : action) (s : Sys) : option Sys :=
  match a with
  | AGo k service method sid reply done args =>
    match sending s with
    | Some _ => None
    | None =>
      let '(c, w) := newCall service method sid reply done args (world s) in
      let '(w, r) := send_register c w in
      Some (mkSys w (option_map (λ sq, (k, c, sq)) r) (receiving s) ToWrite (handling s)
                  (if r is Some sq then HIssue sq c reply :: history s else history s))
    end
  | AWrite =>
    match sending s, phase s with
    | Some (k, c, sq), ToWrite =>
      let '(w, err) := send_request k c sq (world s) in
      match err with
      | None => Some (mkSys w None (receiving s) ToWrite (handling s) (history s))
      | Some e =>
        Some (mkSys w (sending s) (receiving s) (ToWithdraw e) (handling s) (history s))
      end
    | _, _ => None
    end
  | AWithdraw =>
    match sending s, phase s with
    | Some (k, c, sq), ToWithdraw e =>
      let '(w, found) := take_entry sq (world s) in
      Some (mkSys w (sending s) (receiving s) (ToFail e found) (handling s)
                  (HWithdraw sq :: history s))
    | _, _ => None
    end
  | AFail =>
    match sending s, phase s with
    | Some _, ToFail e found =>
      Some (mkSys (fail_call found e (world s)) None (receiving s) ToWrite (handling s)
                  (history s))
    | _, _ => None
    end
  | ARead =>
    match receiving s, handling s with
    | true, None =>
      Some (mkSys (read_chunk (world s)).1 (sending s) true (phase s) None (history s))
    | _, _ => None
    end
  | ADecode =>
    match receiving s, handling s with
    | true, None =>
      let '(w, response, err) := decode_record (world s) in
      match err with
      | Some _ => Some (mkSys w (sending s) true (phase s) None (history s))
      | None =>
        if decide (rsKind response = HandlerPush ∨ rsKind response = HandlerResponse) then
          match forward_response response w with
          | Next w => Some (mkSys w (sending s) true (phase s) None (history s))
          | _ => None
          end
        else
          let '(w, found) := take_entry (rsSeq response) w in
          Some (mkSys w (sending s) true (phase s) (Some (response, found))
                      (HAnswer (rsSeq response) :: history s))
      end
    | _, _ => None
    end
  | ADeliver =>
    match handling s with
    | Some (response, found) =>
      match deliver response found (world s) with
      | Next w => Some (mkSys w (sending s) (receiving s) (phase s) None (history s))
      | _ => None
      end
    | None => None
    end
  | ADrain =>
    match receiving s, sending s, handling s with
    | true, None, None =>
      Some (mkSys (terminate None (world s)) None false ToWrite None
                  (HTerminate :: history s))
    | _, _, _ => None
    end
  | AClose =>
    Some (mkSys (Close (world s)).1 (sending s) (receiving s) (phase s) (handling s)
                (history s))
  end.

Fixpoint run (l : list action) (s : Sys) : option Sys :=
  match l with
  | [] => Some s
  | a :: l => match step a s with Some s => run l s | None => None end
  end.

(** The state [NewClient] leaves, with the receive loop started. *)
Definition NewClient (c : C) : Sys := mkSys (NewClientState c) None true ToWrite None [].

(** The calls that await their response after the happenings [h], by
    sequence number: a call with a [Reply] slot awaits its response from
    the moment [Go] has given it its number, until a response with that
    number arrives, the [send] whose write failed comes back for the
    number, or the receive loop terminates.  (Should a number be given out
    again while a call still awaits under it, which takes [2^64] calls,
    the later call is the one that gets the response.) *)
Fixpoint awaiting (h : list happening) : gmap N loc :=
  match h with
  | [] => ∅
  | HIssue s c reply :: h =>
    if reply is Some _ then <[s := c]> (awaiting h) else awaiting h
  | HAnswer s :: h | HWithdraw s :: h => delete s (awaiting h)
  | HTerminate :: h => ∅
  end.

(** What ends the wait of a call under [sq]: a response numbered [sq],
    a [send] coming back for [sq], the termination of the receive loop,
    or [sq] given to a later call with a [Reply] slot. *)
Definition concerns (sq : N) (e : happening) : bool :=
  match e with
  | HIssue s _ (Some _) | HAnswer s | HWithdraw s => bool_decide (s = sq)
  | HIssue _ _ None => false
  | HTerminate => true
  end.

(** The history, read off the events: the table insertions and the
    completions, latest first. *)
Definition registered (t : list event) : list (N * loc) :=
  omap (λ e, if e is EvRegister s c then Some (s, c) else None) t.
Definition completed (t : list event) : list loc :=
  omap (λ e, if e is EvDone c then Some c else None) t.
Definition written (t : list event) : list bytes :=
  omap (λ e, if e is EvWrite d then Some d else None) t.

(** ** The invariant of the engine

    A later heap keeps every call of an earlier one, with its [Reply]. *)
Definition heap_le (m m' : gmap loc Call) : Prop :=
  ∀ c call, m !! c = Some call →
    ∃ call', m' !! c = Some call' ∧ Reply call' = Reply call.

Definition tbl (s : Sys) : gmap N loc := pending (client (world s)).
Definition heap (s : Sys) : gmap loc Call := calls (world s).
Definition dones (s : Sys) : list loc := completed (trace (world s)).

(** The calls that were taken out of the table and whose [done] has not
    run yet: the one the receive loop holds and the one the [send] behind
    a failed write holds. *)
Definition taken (s : Sys) : list loc :=
  (if handling s is Some (_, Some c) then [c] else []) ++
  (if phase s is ToFail _ (Some c) then [c] else []).





(** Whether one of the next [n] reads of the stream fails. *)
Fixpoint read_fails (n : nat) (c : C) : bool :=
  match n with
  | O => false
  | S n =>
    match rw_Read c 512 with
    | (_, (_, Some _)) => true
    | (c, (_, None)) => read_fails n c
    end
  end.

End Engine.

(** ** A stream and a record codec for concrete runs

    The stream is a script: what the coming reads return (end of stream
    once the script is used up), the error every write fails with, if any,
    and what has been written. *)
Record ScriptConn := mkScriptConn {
  incoming : list (bytes * option error);
  write_error : option error;
  outgoing : list bytes;
  closed : bool
}.

#[global] Instance ScriptConn_rw : ReadWriteCloser ScriptConn := {
  rw_Read c n :=
    match incoming c with
    | [] => (c, ([], Some EOF))
    | r :: rest => (mkScriptConn rest (write_error c) (outgoing c) (closed c), r)
    end;
  rw_Write c data :=
    match write_error c with
    | Some e => (c, (0%nat, Some e))
    | None => (mkScriptConn (incoming c) None (outgoing c ++ [data]) (closed c),
               (length data, None))
    end;
  rw_Close c := (mkScriptConn (incoming c) (write_error c) (outgoing c) true, None)
}.

(** Records of the form kind, sequence number, payload length, payload. *)
Definition demoMarshal (r : @Request N) (b : bytes) : bytes * option error :=
  (b ++ [byte_of_N (rqSeq r); byte_of_N (N.of_nat (length (rqData r)))] ++ rqData r, None).

Definition demoUnmarshal (b : bytes) : @Response N * (bytes * option error) :=
  match b with
  | k :: s :: n :: rest =>
    if (N.to_nat (Byte.to_N n) <=? length rest)%nat
    then (mkResponse (Byte.to_N k) (Byte.to_N s) EmptyString
                     (take (N.to_nat (Byte.to_N n)) rest),
          (drop (N.to_nat (Byte.to_N n)) rest, None))
    else (mkResponse 0 0 EmptyString [], (b, Some (OtherError "incomplete")))
  | _ => (mkResponse 0 0 EmptyString [], (b, Some (OtherError "incomplete")))
  end.

Definition demoHandlerResponse : N := 1.
Definition demoHandlerPush : N := 2.

(** A new client on a stream with the given script and write error, and
    the same client after one call that expects a reply. *)
Definition demoWorld (script : list (bytes * option error)) (werr : option error)
    : @World N N ScriptConn :=
  NewClientState (mkScriptConn script werr [] false).

Definition onePending : @World N N ScriptConn :=
  (Go demoMarshal 0 "Svc" "M" 0 (Some 1%positive) None [x61] (demoWorld [] None)).2.

(** Three runs of one call that expects a reply: answered by the peer;
    ended by the peer; ended by [Close]. *)
Definition answeredRun : list (@action N) :=
  [AGo 0 "Svc" "M" 0%Z (Some 1%positive) None [x61]; AWrite; ARead; ADecode; ADeliver].

(** A run of three calls, the last without [Reply], up to the critical
    section of the receive loop for the response to the first. *)
Definition awaitingRun : list (@action N) :=
  [AGo 0 "Svc" "M" 0%Z (Some 1%positive) None [x61]; AWrite;
   AGo 0 "Svc" "M" 0%Z (Some 2%positive) None [x62]; AWrite;
   AGo 0 "Svc" "Note" 0%Z None None [x63]; AWrite;
   ARead; ADecode].

(** The stream of the answered run delivers one record: kind 0, sequence
    number 0, one byte of payload. *)
Definition answeredConn : ScriptConn :=
  mkScriptConn [([x00; x00; x01; x62], None)] None [] false.

Definition demoRun (l : list (@action N)) (c : ScriptConn) : option Sys :=
  run demoHandlerPush demoHandlerResponse demoMarshal demoUnmarshal l (NewClient c).

(** The states the runs end in. *)
Definition answeredState : Sys :=
  Eval vm_compute in default (NewClient answeredConn) (demoRun answeredRun answeredConn).
Definition awaitingState : Sys :=
  Eval vm_compute in default (NewClient answeredConn) (demoRun awaitingRun answeredConn).



(** A client after [Close]; a client on a stream whose writes fail; the
    client with one pending call and the first two bytes of the response
    in its buffer, and the same once the rest has arrived and the inner
    loop has run. *)
Definition closedWorld : @World N N ScriptConn := (Close (demoWorld [] None)).1.
Definition brokenWorld : @World N N ScriptConn :=
  demoWorld [] (Some (OtherError "broken pipe")).
Definition partialWorld : @World N N ScriptConn :=
  upd_client (set_buf [x00; x00]) onePending.
Definition completeWorld : @World N N ScriptConn :=
  Eval vm_compute in
    flow_world (decode_loop demoHandlerPush demoHandlerResponse demoUnmarshal 3
                  (feed [x01; x62] partialWorld)).

End rpc.

(** * Package cluster: the Manager component *)
Module cluster.

(** Errors of [encoding/json]. *)
Inductive error :=
| SyntaxError (msg : string)
| InvalidUnmarshalError
| UnmarshalTypeError (msg : string).

(** The calls a [Manager] method makes into the rest of the package:
    [Register], [UpdateServer] and [RemoveServer] are declared in other
    files of the package, so a method's effect is the list of its calls.
    A [*ServerConfig] argument is [None] when the pointer is nil. *)
Inductive invocation (ServerConfig : Type) :=
| CallRegister (info : option ServerConfig)
| CallUpdateServer (info : option ServerConfig)
| CallRemoveServer (srvId : string).
Arguments CallRegister {ServerConfig} info.
Arguments CallUpdateServer {ServerConfig} info.
Arguments CallRemoveServer {ServerConfig} srvId.

Section Manager.

Variable ServerConfig : Type.

(** The decoder of [encoding/json]: the syntax check of the whole input
    and the decoding into a value of the target's type. *)
Variable checkValid : bytes → option error.
Variable decodeServerConfig : bytes → ServerConfig + error.
Variable decodeString : bytes → string + error.

(** [json.Unmarshal(data, v)] for a pointer [v], given as the value it
    points to, [None] for a nil pointer; the result is the value behind
    [v] afterwards and the error.  As the package documents it: the input
    is checked first; then "if v is nil or not a pointer, Unmarshal
    returns an InvalidUnmarshalError"; then the input is decoded into the
    value [v] points to. *)
Definition Unmarshal {A} (decode : bytes → A + error) (data : bytes) (v : option A)
    : option A * option error :=
  match checkValid data with
  | Some e => (v, Some e)
  | None =>
    match v with
    | None => (None, Some InvalidUnmarshalError)
    | Some old =>
      match decode data with
      | inl a => (Some a, None)
      | inr e => (Some old, Some e)
      end
    end
  end.

(** The attachment methods; the session argument is not used.  In
    [UpdateServer] and [RegisterServer] the target is the variable
    [newServerInfo] itself, a [*ServerConfig] that is nil. *)
Definition UpdateServer (data : bytes) : option error * list (invocation ServerConfig) :=
  let newServerInfo : option ServerConfig := None in
  let '(newServerInfo, err) := Unmarshal decodeServerConfig data newServerInfo in
  match err with
  | Some e => (Some e, [])
  | None => (None, [CallUpdateServer newServerInfo])
  end.

Definition RegisterServer (data : bytes) : option error * list (invocation ServerConfig) :=
  let newServerInfo : option ServerConfig := None in
  let '(newServerInfo, err) := Unmarshal decodeServerConfig data newServerInfo in
  match err with
  | Some e => (Some e, [])
  | None => (None, [CallRegister newServerInfo])
  end.

(** [RemoveServer] passes [&srvId], the address of a string variable. *)
Definition RemoveServer (data : bytes) : option error * list (invocation ServerConfig) :=
  let srvId : string := EmptyString in
  let '(p, err) := Unmarshal decodeString data (Some srvId) in
  match err with
  | Some e => (Some e, [])
  | None => (None, [CallRemoveServer (default srvId p)])
  end.

End Manager.

End cluster.

(** * Properties *)

(** ** Bytes and machine integers *)

Lemma to_N_byte_of_N n : Byte.to_N (byte_of_N n) = n mod 256.
Proof.
  unfold byte_of_N.
  destruct (Byte.of_N (n mod 256)) as [b|] eqn:E.
  - by apply Byte.to_of_N.
  - apply Byte.of_N_None_iff in E.
    pose proof (N.mod_upper_bound n 256). lia.
Qed.

Lemma byte_of_N_to_N b : byte_of_N (Byte.to_N b) = b.
Proof.
  unfold byte_of_N.
  pose proof (Byte.to_N_bounded b).
  rewrite N.mod_small by lia.
  by rewrite Byte.of_to_N.
Qed.

Lemma to_N_byte_of_N_small n : n < 256 → Byte.to_N (byte_of_N n) = n.
Proof. intros. rewrite to_N_byte_of_N. apply N.mod_small. lia. Qed.

Lemma land_7F n : N.land n 0x7F = n mod 128.
Proof. change 0x7F with (N.ones 7). by rewrite N.land_ones. Qed.

Lemma land_FF n : N.land n 0xFF = n mod 256.
Proof. change 0xFF with (N.ones 8). by rewrite N.land_ones. Qed.

Lemma shiftr_7 n : N.shiftr n 7 = n / 128.
Proof. by rewrite N.shiftr_div_pow2. Qed.

Lemma pow_7_succ k : 2 ^ (7 * N.of_nat (S k)) = 128 * 2 ^ (7 * N.of_nat k).
Proof.
  replace (7 * N.of_nat (S k)) with (7 + 7 * N.of_nat k) by lia.
  by rewrite N.pow_add_r.
Qed.

Lemma uint_small n : n < 2 ^ 64 → uint n = n.
Proof. intros. by apply N.mod_small. Qed.

Lemma uint_add_small a b : a + b < 2 ^ 64 → uint (a + uint b) = a + b.
Proof. intros. rewrite (uint_small b) by lia. by apply uint_small. Qed.

(** ** The variable-length identifier *)

Section VarintFacts.
Import message.

Lemma encodeID_S fuel n :
  encodeID (S fuel) n =
  if n / 128 =? 0 then [byte_of_N (n mod 128)]
  else byte_of_N (n mod 128 + 128) :: encodeID fuel (n / 128).
Proof.
  cbn [encodeID]. rewrite shiftr_7.
  pose proof (N.mod_upper_bound n 128 ltac:(lia)).
  rewrite (to_N_byte_of_N_small (n mod 128)) by lia.
  by destruct (n / 128 =? 0).
Qed.

(** A byte below 128 ends the loop and moves [offset] past it. *)
Lemma decodeID_last fuel pre b rest offset k acc :
  b < 128 →
  length pre = (offset + k)%nat →
  acc + b * 2 ^ (7 * N.of_nat k) < 2 ^ 64 →
  decodeID (S fuel) (pre ++ byte_of_N b :: rest) offset (offset + k) acc
  = (acc + b * 2 ^ (7 * N.of_nat k), (offset + k + 1)%nat).
Proof.
  intros Hb Hpre Hacc. cbn [decodeID].
  rewrite lookup_app_r by lia.
  replace (offset + k - length pre)%nat with 0%nat by lia.
  cbn [lookup list_lookup].
  rewrite to_N_byte_of_N_small by lia.
  rewrite land_7F, N.mod_small by lia.
  replace (offset + k - offset)%nat with k by lia.
  rewrite N.shiftl_mul_pow2.
  replace (N.of_nat (7 * k)) with (7 * N.of_nat k) by lia.
  rewrite uint_add_small by lia.
  by apply N.ltb_lt in Hb as ->.
Qed.

(** A byte with the high bit set adds its seven bits and goes on. *)
Lemma decodeID_cont fuel pre b rest offset k acc :
  b < 128 →
  length pre = (offset + k)%nat →
  acc + b * 2 ^ (7 * N.of_nat k) < 2 ^ 64 →
  decodeID (S fuel) (pre ++ byte_of_N (b + 128) :: rest) offset (offset + k) acc
  = decodeID fuel (pre ++ byte_of_N (b + 128) :: rest) offset (offset + S k)
             (acc + b * 2 ^ (7 * N.of_nat k)).
Proof.
  intros Hb Hpre Hacc. cbn [decodeID].
  rewrite lookup_app_r by lia.
  replace (offset + k - length pre)%nat with 0%nat by lia.
  cbn [lookup list_lookup].
  rewrite to_N_byte_of_N_small by lia.
  rewrite land_7F.
  replace ((b + 128) mod 128) with b.
  2:{ rewrite <- (N.Div0.add_mod_idemp_r _ 128). simpl (128 mod 128).
      rewrite N.add_0_r. by rewrite N.mod_small. }
  replace (offset + k - offset)%nat with k by lia.
  rewrite N.shiftl_mul_pow2.
  replace (N.of_nat (7 * k)) with (7 * N.of_nat k) by lia.
  rewrite uint_add_small by lia.
  assert ((b + 128 <? 128) = false) as -> by (apply N.ltb_ge, N.le_add_l).
  by replace (offset + k + 1)%nat with (offset + S k)%nat by lia.
Qed.

(** Decoding the bytes [encodeID] wrote, found after [pre], gives the
    identifier back and leaves [offset] just behind them. *)
Lemma decodeID_encodeID fuel : ∀ n pre rest k acc fuel' offset,
  n < 2 ^ (7 * N.of_nat (S fuel)) →
  length pre = (offset + k)%nat →
  (length (encodeID (S fuel) n) ≤ fuel')%nat →
  acc + n * 2 ^ (7 * N.of_nat k) < 2 ^ 64 →
  decodeID fuel' (pre ++ encodeID (S fuel) n ++ rest) offset (offset + k) acc
  = (acc + n * 2 ^ (7 * N.of_nat k),
     (offset + k + length (encodeID (S fuel) n))%nat).
Proof.
  induction fuel as [|fuel IH]; intros n pre rest k acc fuel' offset Hn Hpre Hfuel Hacc;
    rewrite encodeID_S in *;
    pose proof (N.div_mod n 128 ltac:(lia)) as Hdm;
    pose proof (N.mod_upper_bound n 128 ltac:(lia)) as Hm;
    destruct (n / 128 =? 0) eqn:E;
    try (apply N.eqb_eq in E; assert (n mod 128 = n) as -> by lia;
         destruct fuel' as [|fuel']; [simpl in Hfuel; lia|];
         by apply decodeID_last; [lia|done|done]).
  - apply N.eqb_neq in E. change (2 ^ (7 * N.of_nat 1)) with 128 in Hn.
    rewrite N.div_small in E by done. done.
  - apply N.eqb_neq in E. cbn [length] in *.
    rewrite pow_7_succ in Hn.
    pose proof (pow_7_succ k) as Hk.
    assert (Hq : n / 128 < 2 ^ (7 * N.of_nat (S fuel)))
      by (apply N.Div0.div_lt_upper_bound; lia).
    assert (Hle : acc + n mod 128 * 2 ^ (7 * N.of_nat k)
                  + n / 128 * 2 ^ (7 * N.of_nat (S k))
                  = acc + n * 2 ^ (7 * N.of_nat k))
      by (rewrite Hk; rewrite Hdm at 3; lia).
    destruct fuel' as [|fuel']; [lia|].
    cbn [app]. rewrite decodeID_cont by (done || lia).
    rewrite (cons_middle _ pre), app_assoc.
    rewrite IH; [f_equal; lia|done| |lia|lia].
    rewrite length_app. simpl. lia.
Qed.

Lemma idFuel_enough n : n < 2 ^ (7 * N.of_nat (idFuel n)).
Proof.
  unfold idFuel.
  eapply N.lt_le_trans; [apply N.size_gt|].
  apply N.pow_le_mono_r; lia.
Qed.

End VarintFacts.

(** ** Slices and two-byte codes *)

Section SliceFacts.

Lemma index_app pre b rest hid :
  index (mkSlice (pre ++ b :: rest) hid) (length pre) = Some b.
Proof. unfold index; simpl. by rewrite list_lookup_middle. Qed.

Lemma reslice_app pre mid rest hid n :
  n = (length pre + length mid)%nat →
  reslice (mkSlice (pre ++ mid ++ rest) hid) (length pre) n = Some mid.
Proof.
  intros ->. unfold reslice, cap; simpl.
  rewrite !length_app.
  destruct (_ <=? _)%nat eqn:E1; [|apply Nat.leb_gt in E1; lia].
  destruct (_ + _ <=? _)%nat eqn:E2; [|apply Nat.leb_gt in E2; lia].
  simpl. f_equal.
  rewrite <- !app_assoc, drop_app_length.
  replace (length pre + length mid - length pre)%nat with (length mid) by lia.
  by rewrite take_app_length.
Qed.

Lemma reslice_from_app pre rest hid :
  reslice_from (mkSlice (pre ++ rest) hid) (length pre) = Some rest.
Proof.
  unfold reslice_from, len; simpl. rewrite length_app.
  destruct (_ <=? _)%nat eqn:E1; [|apply Nat.leb_gt in E1; lia].
  by rewrite drop_app_length.
Qed.

Lemma length_list_byte_of_string s :
  length (list_byte_of_string s) = String.length s.
Proof.
  unfold list_byte_of_string. rewrite length_map.
  induction s as [|a s IH]; simpl; [done|]. by rewrite IH.
Qed.

Lemma Uint16_code code :
  code < 65536 →
  message.Uint16 [byte_of_N (N.land (N.shiftr code 8) 0xFF); byte_of_N (N.land code 0xFF)]
  = Some code.
Proof.
  intros Hc. unfold message.Uint16. f_equal.
  rewrite !land_FF, !to_N_byte_of_N, !N.Div0.mod_mod.
  rewrite N.shiftr_div_pow2. change (2 ^ 8) with 256.
  rewrite (N.mod_small (code / 256)) by (apply N.Div0.div_lt_upper_bound; lia).
  apply N.bits_inj. intros i.
  rewrite N.lor_spec.
  destruct (N.lt_ge_cases i 8) as [Hi|Hi].
  - change 256 with (2 ^ 8) at 1. rewrite N.mod_pow2_bits_low by done.
    rewrite N.shiftl_spec_low by done. by rewrite orb_false_r.
  - change 256 with (2 ^ 8) at 1. rewrite N.mod_pow2_bits_high by done.
    rewrite N.shiftl_spec_high' by done.
    change 256 with (2 ^ 8). rewrite <- N.shiftr_div_pow2, N.shiftr_spec'.
    simpl. f_equal. lia.
Qed.

End SliceFacts.

(** ** The message frame codec *)

Section CodecFacts.
Import message.
Variable routeDict : gmap string N.
Variable codeDict : gmap N string.

Lemma valid_types t :
  invalidType t = false → t = Request ∨ t = Notify ∨ t = Response ∨ t = Push.
Proof. destruct t; vm_compute; intros; try discriminate; auto. Qed.

Lemma header_eq m :
  invalidType (Typ m) = false →
  header routeDict m
  = flagByte (Typ m) (bool_decide (is_Some (routeDict !! Route m)))
    :: idBytes m ++ routeBytes routeDict m.
Proof.
  intros H. unfold header, Encode, flagByte, idBytes, routeBytes, hasID.
  cbn [Typ ID Route Data]. rewrite H.
  destruct (Byte.eqb (Typ m) Request || Byte.eqb (Typ m) Response),
    (msgRoute (Typ m)), (routeDict !! Route m);
    cbn [app bool_decide]; rewrite ?app_nil_r, <- ?app_assoc; try done.
Qed.

Lemma Encode_header m :
  invalidType (Typ m) = false → Encode routeDict m = Ok (header routeDict m ++ Data m).
Proof.
  intros H. unfold header, Encode. cbn [Typ ID Route Data]. rewrite H.
  by rewrite app_nil_r.
Qed.

Lemma flag_typ t cmp :
  invalidType t = false →
  byte_of_N (N.land (N.shiftr (Byte.to_N (flagByte t cmp)) 1) msgTypeMask) = t
  ∧ (N.land (Byte.to_N (flagByte t cmp)) msgRouteCompressMask =? 1) = cmp.
Proof.
  intros [->|[->|[->| ->]]]%valid_types; destruct cmp; by vm_compute.
Qed.

Lemma id_stage m rest :
  ID m < 2 ^ 64 →
  (if hasID (Typ m)
   then decodeID (length (idBytes m ++ rest))
                 (flagByte (Typ m) (bool_decide (is_Some (routeDict !! Route m)))
                    :: idBytes m ++ rest) 1 1 0
   else (0, 1%nat))
  = (if hasID (Typ m) then ID m else 0, S (length (idBytes m))).
Proof.
  intros Hid. unfold idBytes. destruct (hasID (Typ m)); [|done].
  unfold idFuel.
  pose proof (decodeID_encodeID (N.to_nat (N.size (ID m))) (ID m)
                [flagByte (Typ m) (bool_decide (is_Some (routeDict !! Route m)))]
                rest 0 0 (length (encodeID (idFuel (ID m)) (ID m) ++ rest)) 1) as H.
  unfold idFuel in H. cbn [app] in H.
  replace (1 + 0)%nat with 1%nat in H by done.
  rewrite H.
  - f_equal. simpl (7 * N.of_nat 0). rewrite N.pow_0_r. lia.
  - apply (idFuel_enough (ID m)).
  - done.
  - rewrite length_app. lia.
  - simpl (7 * N.of_nat 0). rewrite N.pow_0_r. lia.
Qed.

Lemma Decode_header_app m t hid :
  wf_message m → dict_ok routeDict codeDict →
  (3 < length (header routeDict m ++ t))%nat →
  Decode codeDict (mkSlice (header routeDict m ++ t) hid) = Ok (decoded routeDict m t).
Proof.
  intros (Hty & Hid & Hrt) Hdict Hlen.
  rewrite header_eq in * by done.
  set (cmp := bool_decide (is_Some (routeDict !! Route m))) in *.
  unfold Decode, len. cbn [elems].
  destruct (_ <=? _)%nat eqn:E;
    [apply Nat.leb_le in E; unfold msgHeadLength in E; lia|]. clear E.
  cbn [app index elems lookup list_lookup checked mbind result_bind].
  destruct (flag_typ (Typ m) cmp Hty) as [-> ->].
  rewrite Hty.
  change (Byte.eqb (Typ m) Request || Byte.eqb (Typ m) Response) with (hasID (Typ m)).
  rewrite <- app_assoc.
  replace (length (flagByte (Typ m) cmp :: idBytes m ++ routeBytes routeDict m ++ t) - 1)%nat
    with (length (idBytes m ++ routeBytes routeDict m ++ t)) by (simpl; lia).
  unfold cmp at 1. rewrite id_stage by done. fold cmp.
  set (pre := flagByte (Typ m) cmp :: idBytes m).
  change (flagByte (Typ m) cmp :: idBytes m ++ routeBytes routeDict m ++ t)
    with (pre ++ routeBytes routeDict m ++ t).
  change (S (length (idBytes m))) with (length pre).
  unfold decoded. fold cmp.
  unfold routeBytes.
  destruct (msgRoute (Typ m)) eqn:Hr.
  - destruct (routeDict !! Route m) as [code|] eqn:Hd.
    + destruct (Hdict _ _ Hd) as [Hc Hcd].
      replace cmp with true by done.
      rewrite reslice_app by done.
      cbn [checked mbind result_bind]. rewrite Uint16_code by done.
      cbn [checked mbind result_bind]. rewrite Hcd.
      rewrite (app_assoc pre).
      replace (length pre + 2)%nat with (length (pre ++ [byte_of_N (N.land (N.shiftr code 8) 255);
                byte_of_N (N.land code 255)])) by (rewrite length_app; done).
      cbn [checked mbind result_bind]. by rewrite reslice_from_app.
    + replace cmp with false by done.
      rewrite <- app_comm_cons, index_app. cbn [checked mbind result_bind].
      specialize (Hrt eq_refl).
      rewrite to_N_byte_of_N_small by lia. rewrite Nat2N.id.
      rewrite (cons_middle _ pre), (app_assoc pre).
      replace (length pre + 1)%nat with (length (pre ++ [byte_of_N (N.of_nat (String.length (Route m)))]))
        by (rewrite length_app; done).
      rewrite reslice_app by (by rewrite length_list_byte_of_string).
      cbn [checked mbind result_bind].
      rewrite string_of_list_byte_of_string.
      rewrite (app_assoc _ (list_byte_of_string _)).
      rewrite <- (length_list_byte_of_string (Route m)), <- length_app.
      cbn [checked mbind result_bind]. by rewrite reslice_from_app.
  - cbn [checked mbind result_bind app].
    cbn [checked mbind result_bind]. by rewrite reslice_from_app.
Qed.

End CodecFacts.

(** ** Round trip, frames in a row, truncated frames *)

Section CodecClaims.
Import message.

Lemma Decode_short codeDict (s : Slice) :
  (len s ≤ 3)%nat → Decode codeDict s = Err ErrInvalidMessage.
Proof.
  intros H. unfold Decode, msgHeadLength.
  by apply Nat.leb_le in H as ->.
Qed.

Lemma encodeID_nonempty fuel n : (1 ≤ length (encodeID (S fuel) n))%nat.
Proof. rewrite encodeID_S. destruct (n / 128 =? 0); simpl; lia. Qed.

Lemma valid_types_parts t :
  invalidType t = false → hasID t = true ∨ msgRoute t = true.
Proof. intros [->|[->|[->| ->]]]%valid_types; vm_compute; auto. Qed.

(** No encoding is shorter than two bytes. *)
Lemma header_length routeDict m :
  invalidType (Typ m) = false → (2 ≤ length (header routeDict m))%nat.
Proof.
  intros H. rewrite header_eq by done. cbn [length]. rewrite length_app.
  unfold idBytes, routeBytes, idFuel.
  destruct (valid_types_parts _ H) as [E|E]; rewrite E.
  - pose proof (encodeID_nonempty (N.to_nat (N.size (ID m))) (ID m)). lia.
  - destruct (routeDict !! Route m); simpl; lia.
Qed.

Lemma Encode_inv routeDict m b :
  Encode routeDict m = Ok b →
  invalidType (Typ m) = false ∧ b = header routeDict m ++ Data m.
Proof.
  intros H. destruct (invalidType (Typ m)) eqn:E.
  - unfold Encode in H. by rewrite E in H.
  - rewrite Encode_header in H by done. by injection H as <-.
Qed.

Lemma demo_dict_ok : dict_ok demoRouteDict demoCodeDict.
Proof.
  intros r c. unfold demoRouteDict, demoCodeDict.
  intros [<- <-]%lookup_singleton_Some. split; [reflexivity|].
  apply lookup_singleton_eq.
Qed.

(** C4, as amended: round trip.  For a well-formed message and
    dictionaries that agree, [Encode] succeeds; when the encoding is longer
    than [msgHeadLength] = 3 bytes, [Decode] of it succeeds and gives back
    the kind, the identifier for a Request or a Response, the route for a
    kind that carries one (compressed or literal), and the payload; an
    encoding of at most three bytes is refused with [ErrInvalidMessage]. *)
Theorem Decode_Encode_roundtrip routeDict codeDict m hid :
  wf_message m → dict_ok routeDict codeDict →
  ∃ b, Encode routeDict m = Ok b ∧
    ((length b ≤ 3)%nat → Decode codeDict (mkSlice b hid) = Err ErrInvalidMessage) ∧
    ((3 < length b)%nat →
     ∃ m', Decode codeDict (mkSlice b hid) = Ok m' ∧
       Typ m' = Typ m ∧
       (hasID (Typ m) = true → ID m' = ID m) ∧
       (msgRoute (Typ m) = true → Route m' = Route m) ∧
       Data m' = Data m).
Proof.
  intros Hwf Hdict. pose proof Hwf as (Hty & _ & _).
  exists (header routeDict m ++ Data m). split; [by apply Encode_header|]. split.
  - intros Hlen. by apply Decode_short.
  - intros Hlen. exists (decoded routeDict m (Data m)).
    split; [by apply Decode_header_app|].
    unfold decoded; cbn [Typ ID Route Data].
    repeat split; by intros ->.
Qed.

Lemma Decode_Encode_roundtrip_witness :
  ∃ b, Encode demoRouteDict joinNotify = Ok b ∧
    ((length b ≤ 3)%nat → Decode demoCodeDict (exact b) = Err ErrInvalidMessage) ∧
    ((3 < length b)%nat →
     ∃ m', Decode demoCodeDict (exact b) = Ok m' ∧
       Typ m' = Typ joinNotify ∧
       (hasID (Typ joinNotify) = true → ID m' = ID joinNotify) ∧
       (msgRoute (Typ joinNotify) = true → Route m' = Route joinNotify) ∧
       Data m' = Data joinNotify).
Proof.
  apply (Decode_Encode_roundtrip demoRouteDict demoCodeDict joinNotify []).
  - repeat split; simpl; lia.
  - apply demo_dict_ok.
Defined.

(** C4, as stated, fails: the encoding of a well-formed Response with a
    one-byte payload has three bytes, and [Decode] refuses it. *)
Lemma Decode_Encode_short_fails :
  wf_message shortResponse ∧
  Encode ∅ shortResponse = Ok [x04; x05; x61] ∧
  Decode ∅ (exact [x04; x05; x61]) = Err ErrInvalidMessage.
Proof. repeat split; try done; simpl; lia. Qed.

(** C3, as amended: [Decode] returns a message and an error, and no
    remainder.  For two encodings in a row it gives the kind, identifier
    and route of the first message, and as its payload every byte behind
    the first header: the first payload followed by the whole second
    encoding.  A slice of at most three bytes is refused with
    [ErrInvalidMessage]. *)
Theorem Decode_two_frames routeDict codeDict m1 m2 b1 b2 hid :
  wf_message m1 → dict_ok routeDict codeDict →
  Encode routeDict m1 = Ok b1 → Encode routeDict m2 = Ok b2 →
  Decode codeDict (mkSlice (b1 ++ b2) hid)
    = Ok (decoded routeDict m1 (Data m1 ++ b2))
  ∧ ∀ s, (len s ≤ 3)%nat → Decode codeDict s = Err ErrInvalidMessage.
Proof.
  intros Hwf Hdict [Hty1 ->]%Encode_inv [Hty2 ->]%Encode_inv.
  split; [|apply Decode_short].
  rewrite <- app_assoc. apply Decode_header_app; [done..|].
  pose proof (header_length routeDict m1 Hty1).
  pose proof (header_length routeDict m2 Hty2).
  rewrite !length_app. lia.
Qed.

Lemma Decode_two_frames_witness :
  Decode demoCodeDict
         (exact ([x03; x00; x07; x61; x62; x63] ++ [x04; x05; x61]))
    = Ok (decoded demoRouteDict joinNotify (Data joinNotify ++ [x04; x05; x61]))
  ∧ ∀ s, (len s ≤ 3)%nat → Decode demoCodeDict s = Err ErrInvalidMessage.
Proof.
  apply (Decode_two_frames demoRouteDict demoCodeDict joinNotify shortResponse).
  - repeat split; simpl; lia.
  - apply demo_dict_ok.
  - reflexivity.
  - reflexivity.
Defined.

(** C3, as stated, fails: decoding two encodings in a row does not give
    the first message with its own payload only. *)
Lemma two_frames_payload_merged :
  Encode ∅ chatNotify = Ok [x02; x02; x61; x62; x78; x79; x7a] ∧
  Encode ∅ shortResponse = Ok [x04; x05; x61] ∧
  Decode ∅ (exact ([x02; x02; x61; x62; x78; x79; x7a] ++ [x04; x05; x61]))
    = Ok (mkMessage Notify 0 "ab" [x78; x79; x7a; x04; x05; x61] false) ∧
  [x78; x79; x7a; x04; x05; x61] ≠ Data chatNotify.
Proof. repeat split; done. Qed.

(** C5, as amended: strict prefixes.  A prefix of at most three bytes is
    refused with [ErrInvalidMessage].  A longer prefix that holds the
    whole header is decoded without error into the message with its
    payload cut at the end of the prefix, whatever lies in the backing
    array behind the prefix. *)
Theorem Decode_strict_prefix routeDict codeDict m b n hid :
  wf_message m → dict_ok routeDict codeDict →
  Encode routeDict m = Ok b → (n < length b)%nat →
  ((n ≤ 3)%nat → Decode codeDict (mkSlice (take n b) hid) = Err ErrInvalidMessage) ∧
  ((3 < n)%nat → (length (header routeDict m) ≤ n)%nat →
   Decode codeDict (mkSlice (take n b) hid)
   = Ok (decoded routeDict m (take (n - length (header routeDict m)) (Data m)))).
Proof.
  intros Hwf Hdict [Hty ->]%Encode_inv Hn. split.
  - intros H3. apply Decode_short. unfold len; simpl. rewrite length_take. lia.
  - intros H3 Hh. rewrite take_app_ge by done.
    apply Decode_header_app; [done..|].
    rewrite length_app, length_take. rewrite length_app in Hn. lia.
Qed.

Lemma Decode_strict_prefix_witness :
  ((5 ≤ 3)%nat →
   Decode demoCodeDict (mkSlice (take 5 [x03; x00; x07; x61; x62; x63]) [x63])
   = Err ErrInvalidMessage) ∧
  ((3 < 5)%nat → (length (header demoRouteDict joinNotify) ≤ 5)%nat →
   Decode demoCodeDict (mkSlice (take 5 [x03; x00; x07; x61; x62; x63]) [x63])
   = Ok (decoded demoRouteDict joinNotify
           (take (5 - length (header demoRouteDict joinNotify)) (Data joinNotify)))).
Proof.
  apply (Decode_strict_prefix demoRouteDict demoCodeDict joinNotify).
  - repeat split; simpl; lia.
  - apply demo_dict_ok.
  - reflexivity.
  - simpl. lia.
Defined.

(** C5, as stated, fails: a strict prefix that ends inside the payload
    is decoded as a message with a shorter payload, not reported as
    incomplete. *)
Lemma truncated_payload_accepted :
  wf_message chatNotify ∧
  Encode ∅ chatNotify = Ok [x02; x02; x61; x62; x78; x79; x7a] ∧
  Decode ∅ (exact (take 5 [x02; x02; x61; x62; x78; x79; x7a]))
    = Ok (mkMessage Notify 0 "ab" [x78] false).
Proof. repeat split; try done; simpl; lia. Qed.

(** A prefix that ends inside the header is not covered by the theorem
    above: here the route length byte announces two bytes, one is there,
    and the slice expression for the route panics. *)
Example Decode_prefix_inside_header :
  Encode ∅ chatRequest = Ok [x00; xac; x02; x02; x61; x62; x61; x62; x63] ∧
  Decode ∅ (exact (take 5 [x00; xac; x02; x02; x61; x62; x61; x62; x63])) = Panic.
Proof. split; reflexivity. Qed.

End CodecClaims.

(** ** The RPC client: what each operation leaves untouched *)

Section EngineFacts.
Import rpc.
Context {RpcKind ResponseKind : Type} `{EqDecision ResponseKind}.
Variables HandlerPush HandlerResponse : ResponseKind.
Variable MarshalMsg : @Request RpcKind → bytes → bytes * option error.
Variable UnmarshalMsg : bytes → @Response ResponseKind * (bytes * option error).
Context {C : Type} `{ReadWriteCloser C}.

Implicit Types w : @World RpcKind ResponseKind C.

Lemma Call_done_client c w : client (Call_done c w) = client w.
Proof.
  unfold Call_done. by repeat case_match.
Qed.

Lemma Call_done_conn c w : conn (Call_done c w) = conn w.
Proof.
  unfold Call_done. by repeat case_match.
Qed.

Lemma Call_done_calls c w : calls (Call_done c w) = calls w.
Proof.
  unfold Call_done. by repeat case_match.
Qed.


Lemma Call_done_trace c w : trace (Call_done c w) = EvDone c :: trace w.
Proof.
  unfold Call_done. by repeat case_match.
Qed.


Lemma handle_response_conn r w :
  conn (flow_world (handle_response HandlerPush HandlerResponse r w)) = conn w.
Proof.
  unfold handle_response. case_decide.
  - by case_match.
  - cbn. destruct (pending (client w) !! rsSeq r) as [c|]; [|done].
    destruct (negb _); cbn; [by rewrite Call_done_conn|].
    destruct (calls w !! c) as [[? ? ? [slot|] ? ?]|]; cbn; try done.
    by rewrite Call_done_conn.
Qed.

Lemma decode_loop_conn fuel : ∀ w,
  conn (flow_world (decode_loop HandlerPush HandlerResponse UnmarshalMsg fuel w)) = conn w.
Proof.
  induction fuel as [|fuel IH]; intros w; cbn [decode_loop]; [done|].
  unfold decode_record.
  destruct (UnmarshalMsg _) as [r [rest [e|]]]; [done|].
  pose proof (handle_response_conn r (upd_client (set_buf rest) w)) as Hc.
  destruct (handle_response _ _ r _) as [w1| | |]; try done.
  rewrite IH. exact Hc.
Qed.

(** The loop is left, with [Next], only behind a read that failed. *)
Lemma read_loop_Next fuel : ∀ w w',
  read_loop HandlerPush HandlerResponse UnmarshalMsg fuel w = Next w' →
  read_fails fuel (conn w) = true.
Proof.
  induction fuel as [|fuel IH]; intros w w'; cbn [read_loop read_fails]; [done|].
  unfold read_chunk.
  destruct (rw_Read (conn w) 512) as [c [chunk [e|]]]; [done|].
  set (w1 := upd_client _ _).
  pose proof (decode_loop_conn fuel w1) as Hc.
  destruct (decode_loop _ _ _ fuel w1) as [w2| | |]; try done.
  intros Hr. apply IH in Hr. cbn in Hc. by rewrite <- Hc.
Qed.

(** The inner loop is left, with [Next], only at an error of the
    decoder. *)
Lemma decode_loop_Next fuel : ∀ w w',
  decode_loop HandlerPush HandlerResponse UnmarshalMsg fuel w = Next w' →
  ∃ w0 r e, decode_record UnmarshalMsg w0 = (w', r, Some e).
Proof.
  induction fuel as [|fuel IH]; intros w w'; cbn [decode_loop]; [done|].
  destruct (decode_record UnmarshalMsg w) as [[w1 r] [e|]] eqn:Hd.
  - intros [= <-]. eauto.
  - destruct (handle_response _ _ r w1) as [w2| | |]; try done. apply IH.
Qed.

(** C2: an incomplete frame stops the inner loop only.  When a read
    succeeds and the decoder reports an error on the accumulated buffer,
    [input] goes on exactly as it does from the state with the decoder's
    remainder as buffer: its next action is another read, and nothing has
    been drained.  The same holds whenever the inner loop stops after some
    decoded records, and it stops only at an error of the decoder.  And
    whenever [input] returns, a read of the stream has failed: no report
    of the decoder ends the outer loop. *)
Theorem input_continues_on_incomplete fuel w c chunk r rest e :
  rw_Read (conn w) 512 = (c, (chunk, None)) →
  UnmarshalMsg (codec_buf (client w) ++ chunk) = (r, (rest, Some e)) →
  input HandlerPush HandlerResponse UnmarshalMsg (S (S fuel)) w
  = input HandlerPush HandlerResponse UnmarshalMsg (S fuel)
          (upd_client (set_buf rest) (set_conn c w))
  ∧ (∀ n w0 w1 w2,
      read_chunk w0 = (w1, None) →
      decode_loop HandlerPush HandlerResponse UnmarshalMsg (S n) w1 = Next w2 →
      (∃ w3 r' e', decode_record UnmarshalMsg w3 = (w2, r', Some e')) ∧
      input HandlerPush HandlerResponse UnmarshalMsg (S (S n)) w0
      = input HandlerPush HandlerResponse UnmarshalMsg (S n) w2)
  ∧ (∀ n w0 w',
      input HandlerPush HandlerResponse UnmarshalMsg n w0 = Next w' →
      read_fails n (conn w0) = true).
Proof.
  intros Hread Hdec. split; [|split].
  - unfold input. cbn [read_loop]. unfold read_chunk. rewrite Hread.
    cbn [decode_loop]. unfold decode_record.
    cbn [upd_client set_conn client set_buf codec_buf].
    rewrite Hdec. done.
  - intros n w0 w1 w2 Hr Hd. split; [by eapply decode_loop_Next|].
    unfold input. cbn [read_loop]. by rewrite Hr, Hd.
  - intros n w0 w' Hin. unfold input in Hin.
    destruct (read_loop _ _ _ n w0) as [w1| | |] eqn:E; try done.
    by apply read_loop_Next in E.
Qed.



(** A failed write for a call that sits in the table under [sq]: the
    entry goes, the call carries the write error and is completed, and no
    other call is touched. *)
Lemma send_write_failure_registered k c sq w call data e c1 n :
  calls w !! c = Some call → pending (client w) !! sq = Some c →
  MarshalMsg (mkRequest sq (ServiceMethod call) (Args call) (Some k) (Sid call))
             emptyBytes = (data, None) →
  rw_Write (conn w) data = (c1, (n, Some e)) →
  let w' := send_write MarshalMsg k c sq w in
  pending (client w') = delete sq (pending (client w)) ∧
  calls w' = alter (set_Error (Some e)) c (calls w) ∧
  completed (trace w') = c :: completed (trace w).
Proof.
  intros Hcall Hp Hm Hw. cbn zeta. unfold send_write, writeRequest.
  rewrite Hcall. cbn [client upd_client request set_request]. rewrite Hm.
  cbn [conn upd_client]. rewrite Hw.
  cbn [client upd_client pending set_request set_conn emit]. rewrite Hp.
  rewrite Call_done_client, Call_done_calls, Call_done_trace. done.
Qed.

End EngineFacts.

Section EngineRuns.
Import rpc.

Lemma input_continues_on_incomplete_witness :
  input demoHandlerPush demoHandlerResponse demoUnmarshal 2
        (demoWorld [([x00; x00], None)] None)
  = input demoHandlerPush demoHandlerResponse demoUnmarshal 1
          (upd_client (set_buf [x00; x00])
             (set_conn (mkScriptConn [] None [] false)
                       (demoWorld [([x00; x00], None)] None)))
  ∧ (∀ n (w0 w1 w2 : @World N N ScriptConn),
      read_chunk w0 = (w1, None) →
      decode_loop demoHandlerPush demoHandlerResponse demoUnmarshal (S n) w1 = Next w2 →
      (∃ w3 r' e', decode_record demoUnmarshal w3 = (w2, r', Some e')) ∧
      input demoHandlerPush demoHandlerResponse demoUnmarshal (S (S n)) w0
      = input demoHandlerPush demoHandlerResponse demoUnmarshal (S n) w2)
  ∧ (∀ n (w0 w' : @World N N ScriptConn),
      input demoHandlerPush demoHandlerResponse demoUnmarshal n w0 = Next w' →
      read_fails n (conn w0) = true).
Proof.
  apply (input_continues_on_incomplete demoHandlerPush demoHandlerResponse
           demoUnmarshal 0 (demoWorld [([x00; x00], None)] None)
           (mkScriptConn [] None [] false) [x00; x00]
           (mkResponse 0 0 EmptyString []) [x00; x00] (OtherError "incomplete"));
    reflexivity.
Defined.


(** C1 fails on the code.  One call is pending, [closing] was never set,
    and the first read of the stream returns [io.EOF].  [input] returns,
    sets [shutdown] and runs [done] on the call, but the call's [Error] is
    nil, not [io.ErrUnexpectedEOF]: the [err] that [terminate] classifies
    is the outer variable, which the loop never assigns. *)
Theorem input_EOF_completes_with_nil_error :
  closing (client onePending) = false ∧
  pending (client onePending) !! 0 = Some 1%positive ∧
  (rw_Read (conn onePending) 512).2 = ([], Some EOF) ∧
  ∃ w', input demoHandlerPush demoHandlerResponse demoUnmarshal 1 onePending = Next w' ∧
        shutdown (client w') = true ∧
        completed (trace w') = [1%positive] ∧
        Error <$> calls w' !! 1%positive = Some None ∧
        classify (Some EOF) false = Some ErrUnexpectedEOF.
Proof.
  repeat split; try reflexivity.
  eexists. repeat split; reflexivity.
Qed.

(** C9 fails on the code for a call without [Reply] slot.  The write
    fails; the call was never put in the table, so the lookup that
    replaces the local [call] finds nothing, [done] does not run and the
    call's [Error] stays nil. *)
Theorem send_write_failure_forgets_call :
  let '(c, w') := Go demoMarshal 0 "Svc" "M" 0 None None [x61]
                     (demoWorld [] (Some (OtherError "broken pipe"))) in
  c = 1%positive ∧
  (rw_Write (conn w') [x00; x01; x61]).2 = (0%nat, Some (OtherError "broken pipe")) ∧
  written (trace w') = [[x00; x01; x61]] ∧
  completed (trace w') = [] ∧
  Error <$> calls w' !! c = Some None ∧
  ch_queue <$> chans w' !! 1%positive = Some [].
Proof. repeat split; reflexivity. Qed.

(** The same failure for a call with a [Reply] slot: its entry is taken
    out of the table and it is completed with the write error. *)
Example send_write_failure_completes_registered :
  let '(c, w') := Go demoMarshal 0 "Svc" "M" 0 (Some 1%positive) None [x61]
                     (demoWorld [] (Some (OtherError "broken pipe"))) in
  pending (client w') = ∅ ∧
  completed (trace w') = [c] ∧
  Error <$> calls w' !! c = Some (Some (OtherError "broken pipe")) ∧
  ch_queue <$> chans w' !! 1%positive = Some [c].
Proof. repeat split; reflexivity. Qed.

End EngineRuns.

(** ** The RPC client: the invariant and its preservation *)

Section EngineInvariant.
Import rpc.
Context {RpcKind ResponseKind : Type} `{EqDecision ResponseKind}.
Variables HandlerPush HandlerResponse : ResponseKind.
Variable MarshalMsg : @Request RpcKind → bytes → bytes * option error.
Variable UnmarshalMsg : bytes → @Response ResponseKind * (bytes * option error).
Context {C : Type} `{ReadWriteCloser C}.

Implicit Types w : @World RpcKind ResponseKind C.
Implicit Types s : @Sys RpcKind ResponseKind C.

(** [send_write] and [handle_response] are the pieces of the steps, run
    one behind the other. *)
Lemma send_write_pieces k c sq w :
  send_write MarshalMsg k c sq w
  = let '(w1, err) := send_request MarshalMsg k c sq w in
    match err with
    | None => w1
    | Some e => let '(w2, found) := take_entry sq w1 in fail_call found e w2
    end.
Proof.
  unfold send_write, send_request, take_entry, fail_call.
  destruct (calls w !! c) as [call|]; [|done].
  by destruct (writeRequest _ _) as [w1 [e|]].
Qed.

Lemma handle_response_pieces r w :
  handle_response HandlerPush HandlerResponse r w
  = if decide (rsKind r = HandlerPush ∨ rsKind r = HandlerResponse)
    then forward_response r w
    else let '(w1, found) := take_entry (rsSeq r) w in deliver r found w1.
Proof.
  unfold handle_response, forward_response, take_entry, deliver.
  case_decide; [done|]. cbn zeta. by destruct (pending (client w) !! rsSeq r).
Qed.

Lemma heap_le_refl (m : gmap loc Call) : heap_le m m.
Proof. intros c call Hc. eauto. Qed.

Lemma heap_le_trans (m1 m2 m3 : gmap loc Call) :
  heap_le m1 m2 → heap_le m2 m3 → heap_le m1 m3.
Proof.
  intros H12 H23 c call Hc.
  destruct (H12 _ _ Hc) as (call2 & Hc2 & Hr2).
  destruct (H23 _ _ Hc2) as (call3 & Hc3 & Hr3).
  exists call3. split; [done|congruence].
Qed.

Lemma heap_le_alter (m : gmap loc Call) c err :
  heap_le m (alter (set_Error err) c m).
Proof.
  intros c' call Hc. destruct (decide (c = c')) as [->|Hne].
  - exists (set_Error err call). by rewrite lookup_alter_eq, Hc.
  - exists call. by rewrite lookup_alter_ne.
Qed.












Lemma completed_dones (l : list loc) (t : list (@event ResponseKind)) :
  completed ((EvDone <$> l) ++ t) = l ++ completed t.
Proof. induction l as [|c l IH]; cbn; [done|]. by rewrite <- IH. Qed.

Lemma registered_dones (l : list loc) (t : list (@event ResponseKind)) :
  registered ((EvDone <$> l) ++ t) = registered t.
Proof. induction l as [|c l IH]; cbn; [done|]. by rewrite <- IH. Qed.

(** The loop of the termination over the entries [l] of the table. *)
Lemma drain_fold err (l : list (N * loc)) : ∀ w,
  let w' := foldl (λ w '(_, c), Call_done c (store_Error c err w)) w l in
  client w' = client w ∧
  trace w' = (EvDone <$> reverse l.*2) ++ trace w ∧
  heap_le (calls w) (calls w').
Proof.
  induction l as [|[sq c] l IH]; intros w; cbn [foldl].
  - cbn. split; [done|]. split; [done|]. apply heap_le_refl.
  - destruct (IH (Call_done c (store_Error c err w))) as (Hc & Ht & Hh).
    cbn zeta. rewrite Hc, Ht. rewrite Call_done_client, Call_done_trace.
    rewrite Call_done_calls in Hh.
    split; [done|]. split.
    + rewrite fmap_cons, reverse_cons, fmap_app, <- app_assoc. done.
    + eapply heap_le_trans; [|exact Hh]. apply heap_le_alter.
Qed.

Lemma terminate_spec err w :
  let w' := terminate err w in
  pending (client w') = pending (client w) ∧
  seq (client w') = seq (client w) ∧
  shutdown (client w') = true ∧
  registered (trace w') = registered (trace w) ∧
  completed (trace w')
    = reverse (map_to_list (pending (client w))).*2 ++ completed (trace w) ∧
  heap_le (calls w) (calls w').
Proof.
  unfold terminate. cbn zeta.
  set (w1 := upd_client (set_shutdown true) w).
  destruct (drain_fold (classify err (closing (client w1)))
              (map_to_list (pending (client w1))) w1) as (Hc & Ht & Hh).
  set (w2 := foldl _ w1 _) in *.
  assert (Hgoal : pending (client w2) = pending (client w) ∧
    seq (client w2) = seq (client w) ∧ shutdown (client w2) = true ∧
    registered (trace w2) = registered (trace w) ∧
    completed (trace w2)
      = reverse (map_to_list (pending (client w))).*2 ++ completed (trace w) ∧
    heap_le (calls w) (calls w2)).
  { rewrite Hc, Ht. rewrite registered_dones, completed_dones. done. }
  by destruct (shutdownCallback (client w2)).
Qed.

(** What the loop of the termination leaves of the calls: those of the
    table carry [err], the others are as before. *)
Lemma drain_fold_calls err (l : list (N * loc)) c : ∀ w,
  calls (foldl (λ w '(_, c), Call_done c (store_Error c err w)) w l) !! c
  = if decide (c ∈ l.*2) then set_Error err <$> calls w !! c else calls w !! c.
Proof.
  induction l as [|[sq c0] l IH]; intros w; cbn [foldl].
  - case_decide as Hin; [by apply elem_of_nil in Hin|done].
  - rewrite IH, Call_done_calls. cbn [calls store_Error upd_calls].
    rewrite fmap_cons. cbn [snd].
    destruct (decide (c = c0)) as [->|Hne].
    + rewrite lookup_alter_eq.
      rewrite (decide_True (P := c0 ∈ c0 :: l.*2)) by (apply elem_of_cons; by left).
      case_decide; [|done]. by destruct (calls w !! c0).
    + rewrite lookup_alter_ne by done.
      case_decide as Hin.
      * rewrite decide_True; [done|]. apply elem_of_cons. by right.
      * rewrite decide_False; [done|]. by intros [?|?]%elem_of_cons.
Qed.

(** Whatever ended the loop, the calls [input] drains carry a nil
    [Error]: the classified errors never reach them. *)
Lemma input_drains_with_nil_error fuel w w' sq c call :
  input HandlerPush HandlerResponse UnmarshalMsg fuel w = Next w' →
  pending (client w') !! sq = Some c → calls w' !! c = Some call →
  Error call = None.
Proof.
  unfold input.
  destruct (read_loop _ _ _ fuel w) as [w1| | |]; try done.
  intros [= <-]. destruct (terminate_spec None w1) as (Hp & _).
  rewrite Hp. intros Hl. unfold terminate. cbn zeta.
  set (w2 := upd_client (set_shutdown true) w1).
  assert (Hc : calls (foldl (λ w0 '(_, c1), Call_done c1
                 (store_Error c1 (classify None (closing (client w2))) w0))
                 w2 (map_to_list (pending (client w2)))) !! c
               = set_Error None <$> calls w1 !! c).
  { rewrite drain_fold_calls. rewrite decide_True; [done|].
    apply list_elem_of_fmap. exists (sq, c). split; [done|].
    by apply elem_of_map_to_list. }
  destruct (shutdownCallback _); cbn [calls emit]; rewrite Hc;
    destruct (calls w1 !! c); by intros [= <-].
Qed.




Lemma taken_eq s s' :
  handling s' = handling s → phase s' = phase s → taken s' = taken s.
Proof. unfold taken. by intros -> ->. Qed.




Lemma run_app l1 l2 s :
  run HandlerPush HandlerResponse MarshalMsg UnmarshalMsg (l1 ++ l2) s
  = match run HandlerPush HandlerResponse MarshalMsg UnmarshalMsg l1 s with
    | Some s1 => run HandlerPush HandlerResponse MarshalMsg UnmarshalMsg l2 s1
    | None => None
    end.
Proof.
  revert s. induction l1 as [|a l1 IH]; intros s; cbn [run app]; [done|].
  by destruct (step _ _ _ _ a s).
Qed.

Ltac in_list := solve [repeat (apply elem_of_cons; first [by left | right])].

(** A run of the program alone is a run of the steps: [Go] is [AGo]
    and the steps of its [send]; the receive loop is [ARead], [ADecode]
    and [ADeliver] in turn, followed by [ADrain]. *)
Lemma Go_run k service method sid reply done args w rcv hd h :
  ∃ l h', Forall (λ a, a ∈ [AWrite; AWithdraw; AFail]) l ∧
    run HandlerPush HandlerResponse MarshalMsg UnmarshalMsg
        (AGo k service method sid reply done args :: l) (mkSys w None rcv ToWrite hd h)
    = Some (mkSys (Go MarshalMsg k service method sid reply done args w).2
                  None rcv ToWrite hd h').
Proof.
  unfold Go, send. cbn [run step sending world].
  destruct (newCall _ _ _ _ _ _ _) as [c w1].
  destruct (send_register c w1) as [w2 [sq|]]; cbn [option_map snd].
  - rewrite send_write_pieces.
    destruct (send_request _ _ _ _ _) as [w3 [e|]] eqn:Hw.
    + exists [AWrite; AWithdraw; AFail]. eexists. split.
      { repeat constructor; in_list. }
      cbn [run step sending phase world receiving handling history]. rewrite Hw.
      cbn [run step sending phase world receiving handling history].
      destruct (take_entry sq w3) as [w4 found].
      cbn [run step sending phase world receiving handling history]. reflexivity.
    + exists [AWrite]. eexists. split; [repeat constructor; in_list|].
      cbn [run step sending phase world receiving handling history]. rewrite Hw.
      reflexivity.
  - exists []. eexists. split; [constructor|]. reflexivity.
Qed.

Lemma decode_loop_run fuel sd ph : ∀ w w' h,
  decode_loop HandlerPush HandlerResponse UnmarshalMsg fuel w = Next w' →
  ∃ l h', Forall (λ a, a ∈ [ADecode; ADeliver]) l ∧
    run HandlerPush HandlerResponse MarshalMsg UnmarshalMsg l (mkSys w sd true ph None h)
    = Some (mkSys w' sd true ph None h').
Proof.
  induction fuel as [|fuel IH]; intros w w' h; cbn [decode_loop]; [done|].
  destruct (decode_record UnmarshalMsg w) as [[w1 r] [e|]] eqn:Hd.
  - intros [= <-]. exists [ADecode]. eexists. split; [repeat constructor; in_list|].
    cbn. by rewrite Hd.
  - rewrite handle_response_pieces. case_decide as Hk.
    + destruct (forward_response r w1) as [w2| | |] eqn:Hf; try done.
      intros (l & h' & Hall & Hl)%(IH _ _ h). exists (ADecode :: l), h'.
      split; [constructor; [in_list|done]|].
      cbn [run step receiving handling world]. rewrite Hd.
      rewrite decide_True by done. by rewrite Hf.
    + destruct (take_entry (rsSeq r) w1) as [w2 found] eqn:Ht.
      destruct (deliver r found w2) as [w3| | |] eqn:Hdl; try done.
      intros (l & h' & Hall & Hl)%(IH _ _ (HAnswer (rsSeq r) :: h)).
      exists (ADecode :: ADeliver :: l), h'.
      split; [repeat (constructor; [in_list|]); done|].
      cbn [run step receiving handling world]. rewrite Hd.
      rewrite decide_False by done. rewrite Ht.
      cbn [run step receiving handling world]. by rewrite Hdl.
Qed.

Lemma read_loop_run fuel sd ph : ∀ w w' h,
  read_loop HandlerPush HandlerResponse UnmarshalMsg fuel w = Next w' →
  ∃ l h', Forall (λ a, a ∈ [ARead; ADecode; ADeliver]) l ∧
    run HandlerPush HandlerResponse MarshalMsg UnmarshalMsg l (mkSys w sd true ph None h)
    = Some (mkSys w' sd true ph None h').
Proof.
  induction fuel as [|fuel IH]; intros w w' h; cbn [read_loop]; [done|].
  destruct (read_chunk w) as [w1 [e|]] eqn:Hr.
  - intros [= <-]. exists [ARead]. eexists. split; [repeat constructor; in_list|].
    cbn. by rewrite Hr.
  - destruct (decode_loop _ _ _ fuel w1) as [w2| | |] eqn:Hd; try done.
    apply (decode_loop_run fuel sd ph _ _ h) in Hd as (l1 & h1 & Hall1 & Hl1).
    intros (l2 & h2 & Hall2 & Hl2)%(IH _ _ h1). exists (ARead :: l1 ++ l2), h2. split.
    + constructor; [in_list|]. apply Forall_app. split; [|done].
      eapply Forall_impl; [exact Hall1|]. cbn. intros a Ha.
      apply elem_of_cons. by right.
    + cbn [run step receiving handling world sending phase history]. rewrite Hr. cbn [fst].
      by rewrite run_app, Hl1.
Qed.

Lemma input_run fuel w w' h :
  input HandlerPush HandlerResponse UnmarshalMsg fuel w = Next w' →
  ∃ l h', Forall (λ a, a ∈ [ARead; ADecode; ADeliver]) l ∧
    run HandlerPush HandlerResponse MarshalMsg UnmarshalMsg (l ++ [ADrain])
        (mkSys w None true ToWrite None h)
    = Some (mkSys w' None false ToWrite None h').
Proof.
  unfold input.
  destruct (read_loop _ _ _ fuel w) as [w1| | |] eqn:Hr; try done.
  intros [= <-]. apply (read_loop_run fuel None ToWrite _ _ h) in Hr as (l & h' & Hall & Hl).
  exists l. eexists. split; [done|]. rewrite run_app, Hl. reflexivity.
Qed.


(** The calls that await their response, in the words of the history:
    [c] awaits under [sq] exactly when [Go] gave it [sq] and it has a
    [Reply] slot, and nothing that happened since concerns [sq]. *)
Lemma awaiting_spec h sq c :
  awaiting h !! sq = Some c ↔
  ∃ h1 h2 slot, h = h1 ++ HIssue sq c (Some slot) :: h2 ∧
                Forall (λ e, concerns sq e = false) h1.
Proof.
  induction h as [|e h IH]; cbn [awaiting].
  - split; [done|]. intros (h1 & h2 & slot & Heq & _). by destruct h1.
  - assert (Hskip : concerns sq e = false →
      (awaiting h !! sq = Some c ↔
       ∃ h1 h2 slot, e :: h = h1 ++ HIssue sq c (Some slot) :: h2 ∧
                     Forall (λ e, concerns sq e = false) h1)).
    { intros He. rewrite IH. split.
      - intros (h1 & h2 & slot & -> & Hall). exists (e :: h1), h2, slot.
        split; [done|]. by constructor.
      - intros (h1 & h2 & slot & Heq & Hall). destruct h1 as [|e' h1].
        + injection Heq as -> ->. cbn in He. by rewrite bool_decide_eq_true_2 in He.
        + injection Heq as -> ->. apply Forall_cons in Hall as [_ Hall]. eauto. }
    assert (Hstop : concerns sq e = true → (∀ slot, e ≠ HIssue sq c (Some slot)) →
      ¬ ∃ h1 h2 slot, e :: h = h1 ++ HIssue sq c (Some slot) :: h2 ∧
                      Forall (λ e, concerns sq e = false) h1).
    { intros He Hne (h1 & h2 & slot & Heq & Hall). destruct h1 as [|e' h1].
      - injection Heq as -> ->. by eapply Hne.
      - injection Heq as -> ->. apply Forall_cons in Hall as [Hx _]. congruence. }
    destruct e as [s c' [slot|]|s|s|].
    + destruct (decide (s = sq)) as [->|Hne].
      * rewrite lookup_insert_eq. split.
        -- intros [= ->]. exists [], h, slot. split; [done|constructor].
        -- intros (h1 & h2 & slot' & Heq & Hall). destruct h1 as [|e' h1].
           ++ by simplify_eq/=.
           ++ simplify_eq/=. apply Forall_cons in Hall as [Hx _].
              cbn in Hx. by rewrite bool_decide_eq_true_2 in Hx.
      * rewrite lookup_insert_ne by done. apply Hskip. cbn.
        by rewrite bool_decide_eq_false_2.
    + apply Hskip. done.
    + destruct (decide (s = sq)) as [->|Hne].
      * rewrite lookup_delete_eq. split; [done|]. intros Hx. exfalso. revert Hx.
        apply Hstop; [cbn; by rewrite bool_decide_eq_true_2|done].
      * rewrite lookup_delete_ne by done. apply Hskip. cbn.
        by rewrite bool_decide_eq_false_2.
    + destruct (decide (s = sq)) as [->|Hne].
      * rewrite lookup_delete_eq. split; [done|]. intros Hx. exfalso. revert Hx.
        apply Hstop; [cbn; by rewrite bool_decide_eq_true_2|done].
      * rewrite lookup_delete_ne by done. apply Hskip. cbn.
        by rewrite bool_decide_eq_false_2.
    + split; [done|]. intros Hx. exfalso. revert Hx. by apply Hstop.
Qed.







End EngineInvariant.

Section EngineRunsConcurrent.
Import rpc.


(** The state of that run: the second call awaits its response and has
    its entry; the first was taken out by the receive loop, which still
    holds it, and is not completed yet; the third never had an entry. *)
Example awaiting_run_result :
  receiving awaitingState = true ∧
  map_to_list (tbl awaitingState) = [(1, 2%positive)] ∧
  map_to_list (awaiting (history awaitingState)) = [(1, 2%positive)] ∧
  taken awaitingState = [1%positive] ∧
  dones awaitingState = [] ∧
  (Reply <$> heap awaitingState !! 3%positive) = Some None.
Proof. repeat split; vm_compute; reflexivity. Qed.




(** The run with an answer: the reply is stored, the call completed and
    its entry gone. *)
Example answered_run_result :
  demoRun answeredRun answeredConn = Some answeredState ∧
  tbl answeredState = ∅ ∧
  dones answeredState = [1%positive] ∧
  slots (world answeredState) !! 1%positive = Some [x62].
Proof. repeat split; vm_compute; reflexivity. Qed.

End EngineRunsConcurrent.

(** ** The cluster manager *)

Section ManagerFacts.
Import cluster.
Variable ServerConfig : Type.
Variable checkValid : bytes → option error.
Variable decodeServerConfig : bytes → ServerConfig + error.
Variable decodeString : bytes → string + error.

Lemma Unmarshal_nil {A} (decode : bytes → A + error) data :
  ∃ e, Unmarshal checkValid decode data None = (None, Some e).
Proof. unfold Unmarshal. destruct (checkValid data); eauto. Qed.

(** C10: for every input, [RegisterServer] and [UpdateServer] return an
    error and call neither [Register] nor [UpdateServer]: the target they
    hand to [json.Unmarshal] is a nil pointer. *)
Theorem RegisterServer_always_fails data :
  (∃ e, RegisterServer ServerConfig checkValid decodeServerConfig data = (Some e, [])) ∧
  (∃ e, UpdateServer ServerConfig checkValid decodeServerConfig data = (Some e, [])).
Proof.
  unfold RegisterServer, UpdateServer.
  destruct (Unmarshal_nil decodeServerConfig data) as [e ->]. eauto.
Qed.

(** [RemoveServer], which passes the address of a variable, does reach
    the package's [RemoveServer] on valid input. *)
Lemma RemoveServer_reaches data srvId :
  checkValid data = None → decodeString data = inl srvId →
  RemoveServer ServerConfig checkValid decodeString data = (None, [CallRemoveServer srvId]).
Proof. intros Hv Hd. unfold RemoveServer, Unmarshal. by rewrite Hv, Hd. Qed.

End ManagerFacts.

(** * Further properties *)

(** ** The message frame codec: what [Decode] reads and returns *)

Section CodecMore.
Import message.
Variable routeDict : gmap string N.
Variable codeDict : gmap N string.

Lemma decodeID_head fuel f1 f2 rest offset : ∀ i id,
  (1 ≤ i)%nat →
  decodeID fuel (f1 :: rest) offset i id = decodeID fuel (f2 :: rest) offset i id.
Proof.
  induction fuel as [|fuel IH]; intros i id Hi; cbn [decodeID]; [done|].
  destruct i as [|i]; [lia|]. cbn [lookup list_lookup].
  destruct (rest !! i) as [b|]; [|done].
  destruct (Byte.to_N b <? 128); [done|]. apply IH. lia.
Qed.

Lemma decodeID_offset fuel data offset : ∀ i id,
  (1 ≤ offset)%nat → (1 ≤ (decodeID fuel data offset i id).2)%nat.
Proof.
  induction fuel as [|fuel IH]; intros i id Ho; cbn [decodeID]; [done|].
  destruct (data !! i) as [b|]; [|done].
  destruct (Byte.to_N b <? 128); [cbn; lia|]. by apply IH.
Qed.

Lemma uint_lt n : uint n < 2 ^ 64.
Proof. unfold uint. apply N.mod_upper_bound. lia. Qed.

Lemma decodeID_lt fuel data offset : ∀ i id,
  id < 2 ^ 64 → (decodeID fuel data offset i id).1 < 2 ^ 64.
Proof.
  induction fuel as [|fuel IH]; intros i id Hid; cbn [decodeID]; [done|].
  destruct (data !! i) as [b|]; [|done].
  destruct (Byte.to_N b <? 128); [apply uint_lt|]. apply IH, uint_lt.
Qed.

Lemma reslice_from_head f1 f2 rest hid k :
  reslice_from (mkSlice (f1 :: rest) hid) (S k) = reslice_from (mkSlice (f2 :: rest) hid) (S k).
Proof. reflexivity. Qed.

Lemma reslice_head f1 f2 rest hid k hi :
  reslice (mkSlice (f1 :: rest) hid) (S k) hi = reslice (mkSlice (f2 :: rest) hid) (S k) hi.
Proof. reflexivity. Qed.

(** The kind and the compression bit are all [Decode] takes from the
    flag byte. *)
Lemma Decode_flag_congr f1 f2 rest hid :
  byte_of_N (N.land (N.shiftr (Byte.to_N f1) 1) msgTypeMask)
  = byte_of_N (N.land (N.shiftr (Byte.to_N f2) 1) msgTypeMask) →
  N.land (Byte.to_N f1) msgRouteCompressMask = N.land (Byte.to_N f2) msgRouteCompressMask →
  Decode codeDict (mkSlice (f1 :: rest) hid) = Decode codeDict (mkSlice (f2 :: rest) hid).
Proof.
  intros Ht Hc. unfold Decode, len. cbn [elems length].
  destruct (S (length rest) <=? msgHeadLength)%nat; [done|].
  cbn [index elems lookup list_lookup checked mbind result_bind].
  rewrite Ht, Hc.
  set (typ := byte_of_N (N.land (N.shiftr (Byte.to_N f2) 1) msgTypeMask)).
  destruct (invalidType typ); [done|].
  assert (Hid : ∃ id k,
    (if Byte.eqb typ Request || Byte.eqb typ Response
     then decodeID (S (length rest) - 1) (f1 :: rest) 1 1 0 else (0, 1%nat)) = (id, S k) ∧
    (if Byte.eqb typ Request || Byte.eqb typ Response
     then decodeID (S (length rest) - 1) (f2 :: rest) 1 1 0 else (0, 1%nat)) = (id, S k)).
  { destruct (Byte.eqb typ Request || Byte.eqb typ Response).
    - rewrite (decodeID_head _ f1 f2) by lia.
      pose proof (decodeID_offset (S (length rest) - 1) (f2 :: rest) 1 1 0 ltac:(lia)) as Ho.
      destruct (decodeID _ (f2 :: rest) 1 1 0) as [id [|k]]; [cbn in Ho; lia|].
      by exists id, k.
    - by exists 0, 0%nat. }
  destruct Hid as (id & k & -> & ->).
  destruct (msgRoute typ).
  - destruct (N.land (Byte.to_N f2) msgRouteCompressMask =? 1).
    + replace (S k + 2)%nat with (S (k + 2)) by lia.
      rewrite (reslice_head f1 f2).
      destruct (reslice _ (S k) (S (k + 2))) as [b|]; [|done].
      cbn [checked mbind result_bind].
      destruct (Uint16 b) as [code|]; [|done]. cbn [checked mbind result_bind].
      destruct (codeDict !! code); [|done]. cbn [mbind result_bind].
      by rewrite (reslice_from_head f1 f2).
    + cbn [index elems lookup list_lookup].
      destruct (rest !! k) as [rl|]; [|done]. cbn [checked mbind result_bind].
      replace (S k + 1)%nat with (S (k + 1)) by lia.
      rewrite (reslice_head f1 f2).
      destruct (reslice _ (S (k + 1)) _) as [b|]; [|done].
      cbn [checked mbind result_bind].
      replace (S (k + 1) + N.to_nat (Byte.to_N rl))%nat
        with (S (k + 1 + N.to_nat (Byte.to_N rl))) by lia.
      by rewrite (reslice_from_head f1 f2).
  - cbn [mbind result_bind]. by rewrite (reslice_from_head f1 f2).
Qed.

(** Bits 4 to 7 of the flag byte are not looked at: [Decode] gives the
    same result when they are cleared. *)
Theorem Decode_ignores_reserved_bits flag rest hid :
  Decode codeDict (mkSlice (flag :: rest) hid)
  = Decode codeDict (mkSlice (byte_of_N (N.land (Byte.to_N flag) 0x0F) :: rest) hid).
Proof.
  apply Decode_flag_congr; destruct flag; vm_compute; reflexivity.
Qed.

Lemma reslice_Some (data : Slice) lo hi r :
  reslice data lo hi = Some r → length r = (hi - lo)%nat.
Proof.
  unfold reslice, cap.
  destruct (_ && _) eqn:E; [|done]. intros [= <-].
  apply andb_true_iff in E as [H1%Nat.leb_le H2%Nat.leb_le].
  rewrite length_take, length_drop, length_app. lia.
Qed.

Lemma reslice_from_Some (data : Slice) lo d :
  reslice_from data lo = Some d → d = drop lo (elems data) ∧ (lo ≤ len data)%nat.
Proof.
  unfold reslice_from. destruct (lo <=? len data)%nat eqn:E; [|done].
  intros [= <-]. by apply Nat.leb_le in E.
Qed.

Lemma length_string_of_list_byte l :
  String.length (string_of_list_byte l) = length l.
Proof.
  rewrite <- length_list_byte_of_string.
  by rewrite list_byte_of_string_of_list_byte.
Qed.

(** What [Decode] returns when it returns a message: one of the four
    kinds; an identifier that fits a [uint], zero for Notify and Push; the
    empty route for a Response; a literal route of at most 255 bytes, or
    the dictionary's route for some code; as payload the end of the input
    from some position behind the flag byte on.  [Encode] accepts every
    such message. *)
Theorem Decode_result_shape data m :
  Decode codeDict data = Ok m →
  invalidType (Typ m) = false ∧
  ID m < 2 ^ 64 ∧
  (hasID (Typ m) = false → ID m = 0) ∧
  (msgRoute (Typ m) = false → Route m = EmptyString ∧ compressed m = false) ∧
  (compressed m = false → (String.length (Route m) ≤ 255)%nat) ∧
  (compressed m = true → ∃ code, codeDict !! code = Some (Route m)) ∧
  (∃ k, (1 ≤ k ≤ len data)%nat ∧ Data m = drop k (elems data)) ∧
  (∃ b, Encode routeDict m = Ok b).
Proof.
  unfold Decode.
  destruct (len data <=? msgHeadLength)%nat; [done|].
  destruct (index data 0) as [flag|]; [|done]. cbn [checked mbind result_bind].
  set (typ := byte_of_N (N.land (N.shiftr (Byte.to_N flag) 1) msgTypeMask)).
  destruct (invalidType typ) eqn:Hty; [done|].
  change (Byte.eqb typ Request || Byte.eqb typ Response) with (hasID typ).
  assert (Hid : ∃ id off,
    (if hasID typ then decodeID (len data - 1) (elems data) 1 1 0 else (0, 1%nat)) = (id, off) ∧
    id < 2 ^ 64 ∧ (1 ≤ off)%nat ∧ (hasID typ = false → id = 0)).
  { destruct (hasID typ).
    - pose proof (decodeID_lt (len data - 1) (elems data) 1 1 0 ltac:(done)).
      pose proof (decodeID_offset (len data - 1) (elems data) 1 1 0 ltac:(lia)).
      destruct (decodeID _ _ 1 1 0) as [id off]. by exists id, off.
    - exists 0, 1%nat. split; [done|]. split; [by vm_compute|]. split; [lia|done]. }
  destruct Hid as (id & off & -> & Hlt & Hoff & Hzero).
  assert (Henc : ∀ r d c, ∃ b, Encode routeDict (mkMessage typ id r d c) = Ok b).
  { intros r d c. eexists. by apply Encode_header. }
  destruct (msgRoute typ) eqn:Hr.
  - destruct (N.land (Byte.to_N flag) msgRouteCompressMask =? 1).
    + destruct (reslice data off (off + 2)) as [b|]; [|done].
      cbn [checked mbind result_bind].
      destruct (Uint16 b) as [code|]; [|done]. cbn [checked mbind result_bind].
      destruct (codeDict !! code) as [route|] eqn:Hcd; [|done].
      cbn [mbind result_bind].
      destruct (reslice_from data (off + 2)) as [d|] eqn:Hd; [|done].
      apply reslice_from_Some in Hd as [-> Hle].
      intros [= <-]. cbn [Typ ID Route Data compressed].
      rewrite Hr.
      split; [done|]. split; [done|]. split; [done|]. split; [done|].
      split; [done|]. split; [eauto|]. split; [|apply Henc].
      exists (off + 2)%nat. split; [lia|done].
    + destruct (index data off) as [rl|]; [|done]. cbn [checked mbind result_bind].
      destruct (reslice data (off + 1) _) as [r|] eqn:Hrs; [|done].
      cbn [checked mbind result_bind].
      destruct (reslice_from data _) as [d|] eqn:Hd; [|done].
      apply reslice_from_Some in Hd as [-> Hle].
      apply reslice_Some in Hrs.
      intros [= <-]. cbn [Typ ID Route Data compressed].
      rewrite Hr.
      split; [done|]. split; [done|]. split; [done|]. split; [done|].
      split; [|split; [done|split; [|apply Henc]]].
      * intros _. rewrite length_string_of_list_byte, Hrs.
        pose proof (Byte.to_N_bounded rl). lia.
      * exists (off + 1 + N.to_nat (Byte.to_N rl))%nat. split; [lia|done].
  - cbn [mbind result_bind].
    destruct (reslice_from data off) as [d|] eqn:Hd; [|done].
    apply reslice_from_Some in Hd as [-> Hle].
    intros [= <-]. cbn [Typ ID Route Data compressed].
    rewrite Hr.
    split; [done|]. split; [done|]. split; [done|]. split; [done|].
    split; [intros _; cbn; lia|]. split; [done|]. split; [|apply Henc].
    exists off. split; [lia|done].
Qed.



End CodecMore.

Section CodecMoreRuns.
Import message.

Lemma Decode_result_shape_witness :
  let m := mkMessage Notify 0 "room.join" [x61; x62; x63] true in
  let data := exact [x03; x00; x07; x61; x62; x63] in
  invalidType (Typ m) = false ∧
  ID m < 2 ^ 64 ∧
  (hasID (Typ m) = false → ID m = 0) ∧
  (msgRoute (Typ m) = false → Route m = EmptyString ∧ compressed m = false) ∧
  (compressed m = false → (String.length (Route m) ≤ 255)%nat) ∧
  (compressed m = true → ∃ code, demoCodeDict !! code = Some (Route m)) ∧
  (∃ k, (1 ≤ k ≤ len data)%nat ∧ Data m = drop k (elems data)) ∧
  (∃ b, Encode demoRouteDict m = Ok b).
Proof.
  apply (Decode_result_shape demoRouteDict demoCodeDict
           (exact [x03; x00; x07; x61; x62; x63])).
  vm_compute; reflexivity.
Defined.


End CodecMoreRuns.

(** ** The variable-length identifier: size and shape *)

Section VarintMore.
Import message.

Lemma encodeID_length_le fuel : ∀ n k,
  (1 ≤ k)%nat → n < 2 ^ (7 * N.of_nat k) → (length (encodeID fuel n) ≤ k)%nat.
Proof.
  induction fuel as [|fuel IH]; intros n k Hk Hn; [cbn; lia|].
  rewrite encodeID_S. destruct (n / 128 =? 0) eqn:E; [cbn; lia|].
  apply N.eqb_neq in E. destruct k as [|[|k]]; [lia| |].
  - change (2 ^ (7 * N.of_nat 1)) with 128 in Hn.
    rewrite N.div_small in E by done. done.
  - cbn [length]. apply le_n_S. apply IH; [lia|].
    rewrite pow_7_succ in Hn. apply N.Div0.div_lt_upper_bound. lia.
Qed.

Lemma encodeID_shape fuel : ∀ n,
  n < 2 ^ (7 * N.of_nat (S fuel)) →
  ∃ init l, encodeID (S fuel) n = init ++ [l] ∧
            Forall (λ b, 128 ≤ Byte.to_N b) init ∧ Byte.to_N l < 128.
Proof.
  induction fuel as [|fuel IH]; intros n Hn; rewrite encodeID_S;
    pose proof (N.mod_upper_bound n 128 ltac:(lia)) as Hm;
    destruct (n / 128 =? 0) eqn:E.
  - exists [], (byte_of_N (n mod 128)). split; [done|]. split; [constructor|].
    rewrite to_N_byte_of_N_small; lia.
  - apply N.eqb_neq in E. change (2 ^ (7 * N.of_nat 1)) with 128 in Hn.
    rewrite N.div_small in E by done. done.
  - exists [], (byte_of_N (n mod 128)). split; [done|]. split; [constructor|].
    rewrite to_N_byte_of_N_small; lia.
  - rewrite pow_7_succ in Hn.
    destruct (IH (n / 128)) as (init & l & Heq & Hf & Hl).
    { apply N.Div0.div_lt_upper_bound. lia. }
    exists (byte_of_N (n mod 128 + 128) :: init), l. rewrite Heq.
    split; [done|]. split; [|done]. constructor; [|done].
    rewrite to_N_byte_of_N_small by lia. apply N.le_add_l.
Qed.

(** The identifier of a message takes between one and ten bytes, one
    byte when it is below 128; every byte but the last has the high bit
    set and the last has it clear, so the end of the identifier can be
    told from the bytes. *)
Theorem identifier_bytes n :
  n < 2 ^ 64 →
  (1 ≤ length (encodeID (idFuel n) n) ≤ 10)%nat ∧
  (n < 128 → encodeID (idFuel n) n = [byte_of_N n]) ∧
  ∃ init l, encodeID (idFuel n) n = init ++ [l] ∧
            Forall (λ b, 128 ≤ Byte.to_N b) init ∧ Byte.to_N l < 128.
Proof.
  intros Hn. unfold idFuel. split; [split|split].
  - apply encodeID_nonempty.
  - apply encodeID_length_le; [lia|].
    eapply N.lt_trans; [exact Hn|]. by vm_compute.
  - intros Hs. rewrite encodeID_S. rewrite N.div_small by done.
    cbn. by rewrite N.mod_small.
  - apply encodeID_shape. apply (idFuel_enough n).
Qed.

Lemma identifier_bytes_witness :
  (1 ≤ length (encodeID (idFuel 300) 300) ≤ 10)%nat ∧
  (300 < 128 → encodeID (idFuel 300) 300 = [byte_of_N 300]) ∧
  ∃ init l, encodeID (idFuel 300) 300 = init ++ [l] ∧
            Forall (λ b, 128 ≤ Byte.to_N b) init ∧ Byte.to_N l < 128.
Proof. apply (identifier_bytes 300). by vm_compute. Defined.

End VarintMore.

(** ** The route dictionary *)

Section DictFacts.
Import message.
Variable TrimSpace : string → string.

Lemma SetDict_snoc l e rd cd :
  SetDict TrimSpace (l ++ [e]) rd cd
  = SetDict_entry TrimSpace (SetDict TrimSpace l rd cd) e.
Proof. unfold SetDict. by rewrite foldl_app. Qed.

Lemma NoDup_snoc {A} (l : list A) x : NoDup (l ++ [x]) ↔ NoDup l ∧ x ∉ l.
Proof.
  rewrite NoDup_app. split.
  - intros (Hl & Hd & _). split; [done|]. intros Hx. apply (Hd _ Hx), list_elem_of_singleton. done.
  - intros [Hl Hx]. split; [done|]. split; [|apply NoDup_singleton].
    intros y Hy ->%list_elem_of_singleton. done.
Qed.


(** From empty dictionaries: what the keys are, and when nothing is
    logged. *)
Lemma SetDict_keys l : ∀ rd cd warns,
  SetDict TrimSpace l ∅ ∅ = (rd, cd, warns) →
  (∀ r, is_Some (rd !! r) ↔ r ∈ TrimSpace <$> l.*1) ∧
  (∀ c, is_Some (cd !! c) ↔ c ∈ l.*2) ∧
  (warns = [] ↔ NoDup (TrimSpace <$> l.*1) ∧ NoDup l.*2).
Proof.
  induction l as [|[r1 c1] l IH] using rev_ind; intros rd cd warns.
  - intros [= <- <- <-]. cbn. split; [|split].
    + intros r. rewrite lookup_empty. split; [by intros [? ?]|by intros ?%elem_of_nil].
    + intros c. rewrite lookup_empty. split; [by intros [? ?]|by intros ?%elem_of_nil].
    + split; [intros _; split; apply NoDup_nil_2|done].
  - rewrite SetDict_snoc.
    destruct (SetDict TrimSpace l ∅ ∅) as [[rd1 cd1] w1] eqn:E.
    destruct (IH _ _ _ eq_refl) as (Hr & Hc & Hw).
    cbn [SetDict_entry]. intros [= <- <- <-].
    rewrite !fmap_app. cbn [fmap list_fmap fst snd].
    split; [|split].
    + intros r. rewrite lookup_insert, elem_of_app, list_elem_of_singleton, <- Hr.
      case_decide; subst; split; eauto. intros [?|?]; [done|congruence].
    + intros c. rewrite lookup_insert, elem_of_app, list_elem_of_singleton, <- Hc.
      case_decide; subst; split; eauto. intros [?|?]; [done|congruence].
    + rewrite !NoDup_snoc, <- Hr, <- Hc.
      destruct (rd1 !! TrimSpace r1) as [x|] eqn:E1, (cd1 !! c1) as [y|] eqn:E2.
      * split; [by intros ?%app_eq_nil%proj2|]. intros [[_ Hn] _]. exfalso; eauto.
      * split; [by intros ?%app_eq_nil%proj2|]. intros [[_ Hn] _]. exfalso; eauto.
      * split; [by intros ?%app_eq_nil%proj2|]. intros [_ [_ Hn]]. exfalso; eauto.
      * rewrite Hw. split.
        -- intros [Ha Hb]. repeat split; try done; by intros [? ?].
        -- intros [[Ha _] [Hb _]]. done.
Qed.

(** [SetDict] on empty dictionaries logs nothing exactly when the table
    has no two routes that are equal after trimming and no two equal
    codes. *)
Theorem SetDict_warns_on_duplicates l rd cd warns :
  SetDict TrimSpace l ∅ ∅ = (rd, cd, warns) →
  warns = [] ↔ NoDup (TrimSpace <$> l.*1) ∧ NoDup l.*2.
Proof. intros E. by destruct (SetDict_keys l _ _ _ E) as (_ & _ & Hw). Qed.



End DictFacts.

Section DictRuns.
Import message.


Lemma SetDict_warns_on_duplicates_witness :
  ([] : list (string * N)) = [] ↔
  NoDup (trimASCII <$> demoTable.*1) ∧ NoDup demoTable.*2.
Proof.
  apply (SetDict_warns_on_duplicates trimASCII demoTable demoTableRoutes demoTableCodes []).
  vm_compute; reflexivity.
Defined.


End DictRuns.

(** ** The RPC client: the effect of one step *)

Section EngineMore.
Import rpc.
Context {RpcKind ResponseKind : Type} `{EqDecision ResponseKind}.
Variables HandlerPush HandlerResponse : ResponseKind.
Variable MarshalMsg : @Request RpcKind → bytes → bytes * option error.
Variable UnmarshalMsg : bytes → @Response ResponseKind * (bytes * option error).
Context {C : Type} `{ReadWriteCloser C}.

Implicit Types w : @World RpcKind ResponseKind C.
Implicit Types s : @Sys RpcKind ResponseKind C.






End EngineMore.

(** ** The RPC client: what holds in every run *)

Section EngineRunsMore.
Import rpc.
Context {RpcKind ResponseKind : Type} `{EqDecision ResponseKind}.
Variables HandlerPush HandlerResponse : ResponseKind.
Variable MarshalMsg : @Request RpcKind → bytes → bytes * option error.
Variable UnmarshalMsg : bytes → @Response ResponseKind * (bytes * option error).
Context {C : Type} `{ReadWriteCloser C}.

Implicit Types w : @World RpcKind ResponseKind C.
Implicit Types s : @Sys RpcKind ResponseKind C.











End EngineRunsMore.

(** ** The RPC client: [Call], the round trip of a call, [OnShutdown] *)

Section EngineCalls.
Import rpc.
Context {RpcKind ResponseKind : Type} `{EqDecision ResponseKind}.
Variables HandlerPush HandlerResponse : ResponseKind.
Variable MarshalMsg : @Request RpcKind → bytes → bytes * option error.
Variable UnmarshalMsg : bytes → @Response ResponseKind * (bytes * option error).
Context {C : Type} `{ReadWriteCloser C}.

Implicit Types w : @World RpcKind ResponseKind C.

(** The receive on the channel of a call whose [done] has just run, the
    channel being empty with room for one. *)
Lemma receive_after_done c w call err n :
  calls w !! c = Some call → chans w !! Done call = Some (mkChan (S n) []) →
  ∃ w', receive_Done c (Call_done c (store_Error c err w)) = (Returned err, w') ∧
        client w' = client w ∧ conn w' = conn w ∧
        trace w' = EvDone c :: trace w.
Proof.
  intros Hc Hd. unfold receive_Done, Call_done, store_Error.
  cbn [calls chans emit upd_calls upd_chans].
  rewrite lookup_alter_eq, Hc. cbn [fmap option_fmap option_map Done set_Error].
  rewrite Hd. cbn [ch_queue ch_cap length Nat.ltb Nat.leb].
  cbn [calls chans emit upd_calls upd_chans].
  rewrite lookup_alter_eq, Hc. cbn [fmap option_fmap option_map Done set_Error].
  rewrite lookup_insert_eq. cbn [app].
  rewrite lookup_alter_eq, Hc. cbn.
  eexists. split; [reflexivity|]. done.
Qed.

(** [Call] on a client that is closing or shut down returns
    [ErrShutdown] at once: nothing is written, the client and its stream
    are as before. *)
Theorem Call_on_closed_client k service method sid reply args w :
  shutdown (client w) || closing (client w) = true →
  ∃ w', Client_Call MarshalMsg k service method sid reply args w
        = (Returned (Some ErrShutdown), w') ∧
        client w' = client w ∧ conn w' = conn w ∧
        written (trace w') = written (trace w).
Proof.
  intros Hgate. unfold Client_Call, Go, newCall, send, send_register.
  cbn [client calls upd_chans upd_calls]. rewrite Hgate.
  set (c := fresh (dom (calls w))). set (d := fresh (dom (chans w))).
  set (call := mkCall (service +:+ "." +:+ method) args sid reply None d).
  set (w1 := upd_calls <[c := call]> (upd_chans <[d := mkChan 1 []]> w)).
  destruct (receive_after_done c w1 call (Some ErrShutdown) 0) as (w' & -> & Hcl & Hcn & Ht).
  - apply lookup_insert_eq.
  - apply lookup_insert_eq.
  - exists w'. split; [done|]. rewrite Hcl, Hcn, Ht. done.
Qed.

(** [send] with a reply slot on an open client whose request cannot be
    encoded or written: the call is taken out of the table again and
    completed with the error. *)
Lemma send_failure k c w call slot data e :
  shutdown (client w) || closing (client w) = false →
  calls w !! c = Some call → Reply call = Some slot →
  (let req := mkRequest (seq (client w)) (ServiceMethod call) (Args call) (Some k)
                        (Sid call) in
   MarshalMsg req emptyBytes = (data, Some e) ∨
   (MarshalMsg req emptyBytes = (data, None) ∧ (rw_Write (conn w) data).2.2 = Some e)) →
  ∃ w0, send MarshalMsg k c w = Call_done c (store_Error c (Some e) w0) ∧
        calls w0 = calls w ∧ chans w0 = chans w ∧
        pending (client w0) = delete (seq (client w)) (pending (client w)) ∧
        seq (client w0) = uint64 (seq (client w) + 1).
Proof.
  intros Hgate Hc Hrep Hfail. unfold send, send_register.
  rewrite Hgate, Hc, Hrep. unfold send_write. cbn [calls emit upd_client]. rewrite Hc.
  unfold writeRequest.
  cbn [client upd_client request set_request set_pending set_seq seq emit conn].
  cbn zeta in Hfail. destruct Hfail as [Hm|[Hm Hw]].
  - rewrite Hm.
    cbn [client upd_client pending set_request set_pending set_seq emit].
    rewrite lookup_insert_eq. eexists. split; [reflexivity|]. cbn.
    by rewrite delete_insert_eq.
  - rewrite Hm. destruct (rw_Write (conn w) data) as [c1 [n e']] eqn:Hwr.
    cbn in Hw. subst e'.
    cbn [client upd_client pending set_request set_pending set_seq set_conn emit].
    rewrite lookup_insert_eq. eexists. split; [reflexivity|]. cbn.
    by rewrite delete_insert_eq.
Qed.

(** [Call] with a reply slot on an open client whose request cannot be
    encoded or written returns the error of the encoder or of the stream:
    the call is taken out of the table again, which is left without an
    entry for the number the call had got, and the counter has moved on. *)
Theorem Call_returns_write_error k service method sid slot args w data e :
  shutdown (client w) || closing (client w) = false →
  (let req := mkRequest (seq (client w)) (service +:+ "." +:+ method) args (Some k) sid in
   MarshalMsg req emptyBytes = (data, Some e) ∨
   (MarshalMsg req emptyBytes = (data, None) ∧ (rw_Write (conn w) data).2.2 = Some e)) →
  ∃ w', Client_Call MarshalMsg k service method sid (Some slot) args w
        = (Returned (Some e), w') ∧
        pending (client w') = delete (seq (client w)) (pending (client w)) ∧
        seq (client w') = uint64 (seq (client w) + 1).
Proof.
  intros Hgate Hfail. unfold Client_Call, Go, newCall.
  cbn [calls upd_chans].
  set (c := fresh (dom (calls w))). set (d := fresh (dom (chans w))).
  set (call := mkCall (service +:+ "." +:+ method) args sid (Some slot) None d).
  set (w1 := upd_calls <[c := call]> (upd_chans <[d := mkChan 1 []]> w)).
  destruct (send_failure k c w1 call slot data e) as (w0 & -> & Hcalls & Hchans & Hp & Hs);
    [done|apply lookup_insert_eq|done|done|].
  destruct (receive_after_done c w0 call (Some e) 0) as (w' & -> & Hcl & _).
  - rewrite Hcalls. apply lookup_insert_eq.
  - rewrite Hchans. apply lookup_insert_eq.
  - exists w'. split; [done|]. by rewrite Hcl, Hp, Hs.
Qed.

(** [Call] with a nil reply on an open client does not return when [Go]
    does: the call is not in the table, whether the write succeeds or
    fails, and nothing was sent on its channel. *)
Theorem Call_without_reply_waits k service method sid args w :
  shutdown (client w) || closing (client w) = false →
  pending (client w) !! seq (client w) = None →
  ∃ w', Client_Call MarshalMsg k service method sid None args w = (Waiting, w') ∧
        pending (client w') = pending (client w) ∧
        completed (trace w') = completed (trace w).
Proof.
  intros Hgate Hfree. unfold Client_Call, Go, newCall.
  cbn [calls upd_chans].
  set (c := fresh (dom (calls w))). set (d := fresh (dom (chans w))).
  set (call := mkCall (service +:+ "." +:+ method) args sid None None d).
  set (w1 := upd_calls <[c := call]> (upd_chans <[d := mkChan 1 []]> w)).
  assert (Hc1 : calls w1 !! c = Some call) by apply lookup_insert_eq.
  assert (Hd1 : chans w1 !! Done call = Some (mkChan 1 [])) by apply lookup_insert_eq.
  assert (Hsend : ∃ w2, send MarshalMsg k c w1 = w2 ∧ calls w2 = calls w1 ∧
            chans w2 = chans w1 ∧ pending (client w2) = pending (client w) ∧
            completed (trace w2) = completed (trace w)).
  { unfold send, send_register. change (client w1) with (client w).
    rewrite Hgate, Hc1. cbn [Reply call]. unfold send_write. rewrite Hc1.
    unfold writeRequest. cbn [client upd_client request set_request conn].
    destruct (MarshalMsg _ emptyBytes) as [data [e|]].
    - cbn [client upd_client pending set_request]. change (client w1) with (client w).
      rewrite Hfree. eexists. split; [reflexivity|]. cbn. by rewrite delete_id.
    - destruct (rw_Write (conn w1) data) as [c1 [n [e|]]].
      + cbn [client upd_client pending set_request set_conn emit].
        change (client w1) with (client w).
        rewrite Hfree. eexists. split; [reflexivity|]. cbn. by rewrite delete_id.
      + eexists. split; [reflexivity|]. cbn. done. }
  destruct Hsend as (w2 & -> & Hcalls & Hchans & Hp & Ht).
  exists w2. split; [|done]. unfold receive_Done.
  by rewrite Hcalls, Hc1, Hchans, Hd1.
Qed.



(** The shutdown callback set by [OnShutdown] runs when the receive loop
    terminates, after every call of the table has been completed; without
    [OnShutdown] the termination runs no callback. *)
Theorem OnShutdown_callback_runs_last err w :
  trace (terminate err (OnShutdown w))
  = EvCallback :: (EvDone <$> reverse (map_to_list (pending (client w))).*2) ++ trace w ∧
  (shutdownCallback (client w) = false →
   trace (terminate err w)
   = (EvDone <$> reverse (map_to_list (pending (client w))).*2) ++ trace w).
Proof.
  split.
  - unfold terminate. cbn zeta.
    set (w1 := upd_client (set_shutdown true) (OnShutdown w)).
    destruct (drain_fold (classify err (closing (client w1)))
                (map_to_list (pending (client w1))) w1) as (Hc & Ht & _).
    rewrite Hc. cbn [w1 client upd_client OnShutdown shutdownCallback set_shutdown
                     set_shutdownCallback emit trace].
    f_equal. exact Ht.
  - intros Hcb. unfold terminate. cbn zeta.
    set (w1 := upd_client (set_shutdown true) w).
    destruct (drain_fold (classify err (closing (client w1)))
                (map_to_list (pending (client w1))) w1) as (Hc & Ht & _).
    rewrite Hc. cbn [w1 client upd_client shutdownCallback set_shutdown]. rewrite Hcb.
    exact Ht.
Qed.

End EngineCalls.

(** ** The RPC client: the inner loop and the segmentation of the stream *)

Section EngineStream.
Import rpc.
Context {RpcKind ResponseKind : Type} `{EqDecision ResponseKind}.
Variables HandlerPush HandlerResponse : ResponseKind.
Variable MarshalMsg : @Request RpcKind → bytes → bytes * option error.
Variable UnmarshalMsg : bytes → @Response ResponseKind * (bytes * option error).
Context {C : Type} `{ReadWriteCloser C}.

Implicit Types w : @World RpcKind ResponseKind C.

Lemma handle_response_buf r w w' :
  handle_response HandlerPush HandlerResponse r w = Next w' →
  codec_buf (client w') = codec_buf (client w).
Proof.
  unfold handle_response. case_decide.
  - case_match; [|done]. by intros [= <-].
  - cbn zeta. destruct (pending (client w) !! rsSeq r) as [c|].
    + destruct (negb _).
      * intros [= <-]. by rewrite Call_done_client.
      * cbn [calls upd_client].
        destruct (calls w !! c) as [[? ? ? [slot|] ? ?]|]; try done.
        intros [= <-]. by rewrite Call_done_client.
    + by intros [= <-].
Qed.

Lemma handle_response_fuel r w w' :
  handle_response HandlerPush HandlerResponse r w ≠ OutOfFuel w'.
Proof. unfold handle_response. repeat case_match; done. Qed.

Lemma decode_loop_fuel fuel : ∀ w,
  (∀ b r rest, UnmarshalMsg b = (r, (rest, None)) → (length rest < length b)%nat) →
  (length (codec_buf (client w)) < fuel)%nat →
  ∀ w', decode_loop HandlerPush HandlerResponse UnmarshalMsg fuel w ≠ OutOfFuel w'.
Proof.
  induction fuel as [|fuel IH]; intros w Hdec Hlen w'; [lia|].
  cbn [decode_loop]. unfold decode_record.
  destruct (UnmarshalMsg (codec_buf (client w))) as [r [rest [e|]]] eqn:Hu; [done|].
  apply Hdec in Hu.
  destruct (handle_response _ _ r _) as [w1| | |w1] eqn:Hh; try done.
  - apply IH; [done|]. apply handle_response_buf in Hh. rewrite Hh. cbn. lia.
  - by apply handle_response_fuel in Hh.
Qed.

(** The inner loop ends whenever the decoder, each time it succeeds,
    returns less than it was given: with a fuel above the length of the
    buffer the loop ends at a decoding error, blocked at the full channel,
    or at the store through a nil [Reply], and the fuel is never used
    up. *)
Theorem decode_loop_ends fuel w :
  (∀ b r rest, UnmarshalMsg b = (r, (rest, None)) → (length rest < length b)%nat) →
  (length (codec_buf (client w)) < fuel)%nat →
  ∃ w', decode_loop HandlerPush HandlerResponse UnmarshalMsg fuel w = Next w' ∨
        decode_loop HandlerPush HandlerResponse UnmarshalMsg fuel w = Blocked w' ∨
        decode_loop HandlerPush HandlerResponse UnmarshalMsg fuel w = Crashed w'.
Proof.
  intros Hdec Hlen. pose proof (decode_loop_fuel fuel w Hdec Hlen) as Hne.
  destruct (decode_loop _ _ _ fuel w) as [w'|w'|w'|w']; eauto.
  by destruct (Hne w').
Qed.

Lemma Call_done_feed c x w : Call_done c (feed x w) = feed x (Call_done c w).
Proof.
  unfold Call_done, feed. cbn [calls chans emit upd_client].
  destruct (calls w !! c) as [call|]; [|done].
  destruct (chans w !! Done call) as [ch|]; [|done].
  by destruct (_ <? _)%nat.
Qed.

(** The body of the loop does not look at the buffer. *)
Lemma handle_response_feed r x w w' :
  handle_response HandlerPush HandlerResponse r w = Next w' →
  handle_response HandlerPush HandlerResponse r (feed x w) = Next (feed x w').
Proof.
  unfold handle_response. cbn [client feed upd_client ResponseChan set_buf rsKind].
  case_decide.
  - case_match; [|done]. by intros [= <-].
  - cbn zeta. cbn [pending set_buf].
    destruct (pending (client w) !! rsSeq r) as [c|].
    + destruct (negb _).
      * intros [= <-]. by rewrite <- (Call_done_feed c x).
      * cbn [calls upd_client feed].
        destruct (calls w !! c) as [[? ? ? [slot|] ? ?]|]; try done.
        intros [= <-]. by rewrite <- (Call_done_feed c x).
    + by intros [= <-].
Qed.

(** How the stream is cut into reads makes no difference to the inner
    loop, for a decoder that returns the buffer as it got it when it
    fails and whose successes do not depend on what follows the record:
    running the loop on the buffer, then again once the bytes [x] have
    arrived, ends in the state the loop reaches when [x] is there from the
    start. *)
Theorem decode_loop_resegmented f1 : ∀ w w1 x f2 w2,
  (∀ b r rest e, UnmarshalMsg b = (r, (rest, Some e)) → rest = b) →
  (∀ b r rest y, UnmarshalMsg b = (r, (rest, None)) →
                 UnmarshalMsg (b ++ y) = (r, (rest ++ y, None))) →
  decode_loop HandlerPush HandlerResponse UnmarshalMsg f1 w = Next w1 →
  decode_loop HandlerPush HandlerResponse UnmarshalMsg f2 (feed x w1) = Next w2 →
  ∃ f, decode_loop HandlerPush HandlerResponse UnmarshalMsg f (feed x w) = Next w2.
Proof.
  induction f1 as [|f1 IH]; intros w w1 x f2 w2 Hfail Hext; cbn [decode_loop]; [done|].
  unfold decode_record.
  destruct (UnmarshalMsg (codec_buf (client w))) as [r [rest [e|]]] eqn:Hu.
  - intros [= <-]. apply Hfail in Hu as ->. intros Hrun. exists f2.
    by destruct w as [[]].
  - destruct (handle_response _ _ r _) as [w3| | |] eqn:Hh; try done.
    intros H1 H2. destruct (IH _ _ _ _ _ Hfail Hext H1 H2) as [f Hf].
    exists (S f). cbn [decode_loop]. unfold decode_record.
    change (codec_buf (client (feed x w))) with (codec_buf (client w) ++ x).
    rewrite (Hext _ _ _ x Hu).
    change (upd_client (set_buf (rest ++ x)) (feed x w))
      with (feed x (upd_client (set_buf rest) w)).
    by rewrite (handle_response_feed r x _ _ Hh).
Qed.

End EngineStream.

(** ** The RPC client: concrete runs *)

Section EngineMoreRuns.
Import rpc.




Lemma Call_on_closed_client_witness :
  ∃ w', Client_Call demoMarshal 0 "Svc" "M" 0%Z (Some 1%positive) [x61] closedWorld
        = (Returned (Some ErrShutdown), w') ∧
        client w' = client closedWorld ∧ conn w' = conn closedWorld ∧
        written (trace w') = written (trace closedWorld).
Proof.
  apply (Call_on_closed_client demoMarshal 0 "Svc" "M" 0%Z (Some 1%positive) [x61]
           closedWorld).
  vm_compute; reflexivity.
Defined.

Lemma Call_returns_write_error_witness :
  ∃ w', Client_Call demoMarshal 0 "Svc" "M" 0%Z (Some 1%positive) [x61] brokenWorld
        = (Returned (Some (OtherError "broken pipe")), w') ∧
        pending (client w') = delete (seq (client brokenWorld)) (pending (client brokenWorld)) ∧
        seq (client w') = uint64 (seq (client brokenWorld) + 1).
Proof.
  apply (Call_returns_write_error demoMarshal 0 "Svc" "M" 0%Z 1%positive [x61]
           brokenWorld [x00; x01; x61] (OtherError "broken pipe")).
  - vm_compute; reflexivity.
  - right. split; vm_compute; reflexivity.
Defined.

Lemma Call_without_reply_waits_witness :
  ∃ w', Client_Call demoMarshal 0 "Svc" "Note" 0%Z None [x63] (demoWorld [] None)
        = (Waiting, w') ∧
        pending (client w') = pending (client (demoWorld [] None)) ∧
        completed (trace w') = completed (trace (demoWorld [] None)).
Proof.
  apply (Call_without_reply_waits demoMarshal 0 "Svc" "Note" 0%Z [x63] (demoWorld [] None));
    vm_compute; reflexivity.
Defined.


(** The record codec of the runs consumes what it decodes, returns the
    buffer as it got it when it fails, and decodes a record whatever
    follows it. *)
Lemma demoUnmarshal_consumes b r rest :
  demoUnmarshal b = (r, (rest, None)) → (length rest < length b)%nat.
Proof.
  unfold demoUnmarshal. destruct b as [|k [|s [|n b]]]; try done.
  destruct (_ <=? _)%nat; [|done]. intros [= _ <-]. rewrite length_drop. cbn. lia.
Qed.

Lemma demoUnmarshal_fails b r rest e :
  demoUnmarshal b = (r, (rest, Some e)) → rest = b.
Proof.
  unfold demoUnmarshal. destruct b as [|k [|s [|n b]]]; try by intros [= _ <-].
  destruct (_ <=? _)%nat; [done|]. by intros [= _ <-].
Qed.

Lemma demoUnmarshal_extends b r rest y :
  demoUnmarshal b = (r, (rest, None)) →
  demoUnmarshal (b ++ y) = (r, (rest ++ y, None)).
Proof.
  unfold demoUnmarshal. destruct b as [|k [|s [|n b]]]; try done.
  cbn [app]. destruct (_ <=? _)%nat eqn:E; [|done].
  apply Nat.leb_le in E. intros [= <- <-].
  rewrite (proj2 (Nat.leb_le _ _)) by (rewrite length_app; lia).
  by rewrite take_app_le, drop_app_le.
Qed.

Lemma decode_loop_ends_witness :
  ∃ w', decode_loop demoHandlerPush demoHandlerResponse demoUnmarshal 5
          (feed [x01; x62] partialWorld) = Next w' ∨
        decode_loop demoHandlerPush demoHandlerResponse demoUnmarshal 5
          (feed [x01; x62] partialWorld) = Blocked w' ∨
        decode_loop demoHandlerPush demoHandlerResponse demoUnmarshal 5
          (feed [x01; x62] partialWorld) = Crashed w'.
Proof.
  apply (decode_loop_ends demoHandlerPush demoHandlerResponse demoUnmarshal 5
           (feed [x01; x62] partialWorld)).
  - apply demoUnmarshal_consumes.
  - vm_compute. lia.
Defined.

Lemma decode_loop_resegmented_witness :
  ∃ f, decode_loop demoHandlerPush demoHandlerResponse demoUnmarshal f
         (feed [x01; x62] partialWorld) = Next completeWorld.
Proof.
  apply (decode_loop_resegmented demoHandlerPush demoHandlerResponse demoUnmarshal
           3 partialWorld partialWorld [x01; x62] 3 completeWorld).
  - apply demoUnmarshal_fails.
  - apply demoUnmarshal_extends.
  - vm_compute; reflexivity.
  - vm_compute; reflexivity.
Defined.

End EngineMoreRuns.
